(** * genmethods: the request-builder generator of the slack bindings

    A shallow embedding of [internal/cmd/genmethods/genmethods.go].

    The generator reads a catalog of endpoints, groups them, and prints Go
    source text.  The development has three layers:

    - the generator itself: [camelit], the grouping loop of [_main], and the
      text printed by [generateServicesFile] and [generateServiceDetailsFile];
    - a small syntax of the Go statements that the generator prints for the
      [Values] and [Do] routines and for the setters, with a printer
      ([render_*]) that is proved to give back the generator's text;
    - the meaning of those statements on a call-state.

    Strings are byte strings ([string], one [ascii] per byte).  Catalog
    identifiers are ASCII, where Go's [range] over a string visits one byte
    per rune and [unicode.ToUpper] only moves [a-z] to [A-Z].

    The catalog is taken as decoded from [endpoints.json].  The text of a
    file is the buffer handed to [format.Source]; the formatter and the
    file system are collaborators outside the generator, and a run in
    which one of them fails is not modelled. *)

From Stdlib Require Import ZArith Ascii String List Bool Lia Sorting.Sorted.
From stdpp Require Import base option list gmap sets strings pretty sorting.

Open Scope string_scope.
Open Scope list_scope.

(** ** The Go library functions the generator calls *)

Module strings.

(** [strings.LastIndexByte(s, c)]: the index of the last [c] in [s],
    or [-1].  [go] carries the index of the current byte and the last
    match so far. *)
Fixpoint LastIndexByte_go (s : string) (c : ascii) (i last : Z) : Z :=
  match s with
  | EmptyString => last
  | String x s' =>
      LastIndexByte_go s' c (i + 1) (if Ascii.eqb x c then i else last)
  end.

Definition LastIndexByte (s : string) (c : ascii) : Z :=
  LastIndexByte_go s c 0 (-1).

(** [strings.HasSuffix(s, suffix)] *)
Definition HasSuffix (s suffix : string) : bool :=
  (String.length suffix <=? String.length s)%nat
  && String.eqb
       (substring (String.length s - String.length suffix)
          (String.length suffix) s)
       suffix.

(** [strings.TrimSuffix(s, suffix)] *)
Definition TrimSuffix (s suffix : string) : string :=
  if HasSuffix s suffix
  then substring 0 (String.length s - String.length suffix) s
  else s.

(** [strings.Replace(s, old, new, -1)] for a non-empty [old]: every
    non-overlapping occurrence, left to right.  [skip] counts the bytes
    of a match that are still to be dropped. *)
Fixpoint Replace_go (skip : nat) (s old new : string) : string :=
  match s with
  | EmptyString => EmptyString
  | String c s' =>
      match skip with
      | S k => Replace_go k s' old new
      | O =>
          if String.prefix old s
          then new +:+ Replace_go (String.length old - 1) s' old new
          else String c (Replace_go 0 s' old new)
      end
  end.

Definition Replace (s old new : string) : string := Replace_go 0 s old new.

(** [strings.Compare(a, b) < 0] *)
Definition less (a b : string) : bool := String.ltb a b.

(** [strings.Join(elems, sep)] *)
Definition Join (elems : list string) (sep : string) : string :=
  String.concat sep elems.

End strings.

Module unicode.

(** [unicode.ToUpper] on a byte of an ASCII string. *)
Definition ToUpper (r : ascii) : ascii :=
  let n := nat_of_ascii r in
  if (97 <=? n)%nat && (n <=? 122)%nat then ascii_of_nat (n - 32) else r.

Definition IsUpper (r : ascii) : bool :=
  let n := nat_of_ascii r in (65 <=? n)%nat && (n <=? 90)%nat.

End unicode.

(** A Go slice expression on a string panics when its bounds are out of
    range; [None] is the panic. *)
Definition slice_to (s : string) (i : Z) : option string :=
  if (0 <=? i)%Z && (i <=? Z.of_nat (String.length s))%Z
  then Some (substring 0 (Z.to_nat i) s) else None.

Definition slice_from (s : string) (i : Z) : option string :=
  if (0 <=? i)%Z && (i <=? Z.of_nat (String.length s))%Z
  then Some (substring (Z.to_nat i) (String.length s - Z.to_nat i) s)
  else None.

(** ** The name transform *)

(** The loop of [camelit].  [first] is [i == 0], [upnext] the flag of the
    source; the result is what the loop writes to the buffer. *)
Fixpoint camelit_go (first upnext : bool) (s : string) : string :=
  match s with
  | EmptyString => EmptyString
  | String r s' =>
      if first || upnext
      then String (unicode.ToUpper r) (camelit_go false false s')
      else if Ascii.eqb r "." || Ascii.eqb r "_"
      then camelit_go false true s'
      else String r (camelit_go false false s')
  end.

Definition camelit (s : string) : string := camelit_go true false s.

(** Whether the byte [c] occurs in [s]. *)
Fixpoint contains (c : ascii) (s : string) : bool :=
  match s with
  | EmptyString => false
  | String x s' => Ascii.eqb x c || contains c s'
  end.

(** Whether a separator of the name transform occurs in [s]. *)
Definition has_separator (s : string) : bool :=
  contains "." s || contains "_" s.

(** Whether [r] is a separator of the name transform. *)
Definition is_separator (r : ascii) : bool :=
  Ascii.eqb r "." || Ascii.eqb r "_".

(** Every separator of [s] stands alone: none is the first byte and none
    follows another separator.  [prev] tells whether the byte before [s] is
    a separator, or is missing. *)
Fixpoint isolated (prev : bool) (s : string) : bool :=
  match s with
  | EmptyString => true
  | String r s' =>
      if is_separator r then negb prev && isolated true s'
      else isolated false s'
  end.

(** ** The catalog *)

Module Argument.
Record t := mk {
  Name : string;
  Type_ : string;
  Required : bool;
  Default : string;
  QueryName : string;
  Comment : string
}.
End Argument.

#[global] Instance Argument_eq_dec : EqDecision Argument.t.
Proof. solve_decision. Defined.

Module Endpoint.
Record t := mk {
  file : string;
  methodName : string;
  Group : string;
  Name : string;       (* e.g. "chat.PostMessage" *)
  JSON : string;
  Args : list Argument.t;
  ReturnType : string;
  SkipToken : bool
}.

Definition set_file (x : string) (e : t) : t :=
  mk x (methodName e) (Group e) (Name e) (JSON e) (Args e) (ReturnType e)
    (SkipToken e).
Definition set_methodName (x : string) (e : t) : t :=
  mk (file e) x (Group e) (Name e) (JSON e) (Args e) (ReturnType e)
    (SkipToken e).
Definition set_Group (x : string) (e : t) : t :=
  mk (file e) (methodName e) x (Name e) (JSON e) (Args e) (ReturnType e)
    (SkipToken e).
Definition set_Args (x : list Argument.t) (e : t) : t :=
  mk (file e) (methodName e) (Group e) (Name e) (JSON e) x (ReturnType e)
    (SkipToken e).
End Endpoint.

(** ** Sorting *)

(** [sort.Slice] and [sort.Strings] promise a permutation ordered by the
    [less] callback and nothing about elements that compare equal.  The
    model is insertion sort with the callback of the source. *)
Module sort.

Fixpoint insert {A} (less : A -> A -> bool) (x : A) (l : list A) : list A :=
  match l with
  | [] => [x]
  | y :: l' => if less x y then x :: l else y :: insert less x l'
  end.

Definition Slice {A} (less : A -> A -> bool) (l : list A) : list A :=
  foldr (insert less) [] l.

Definition Strings (l : list string) : list string := Slice strings.less l.

End sort.

(** ** The grouping loop of [_main] *)

(** The body of the loop for one endpoint.  [None] is the run-time panic of
    a slice expression whose bound is out of range. *)
Definition prepare (endpoint : Endpoint.t) : option Endpoint.t :=
  let i := strings.LastIndexByte (Endpoint.Name endpoint) "." in
  ns ← slice_to (Endpoint.Name endpoint) i;
  let endpoint :=
    Endpoint.set_file (strings.Replace ns "." "_" +:+ ".go") endpoint in
  let endpoint :=
    if (String.length (Endpoint.Group endpoint) =? 0)%nat
    then Endpoint.set_Group (camelit ns) endpoint else endpoint in
  mn ← slice_from (Endpoint.Name endpoint) (i + 1);
  Some (Endpoint.set_methodName (camelit mn) endpoint).

(** What the loop body makes of an endpoint whose name is [ns.mn]. *)
Definition prepared (ns mn : string) (e : Endpoint.t) : Endpoint.t :=
  Endpoint.mk (strings.Replace ns "." "_" +:+ ".go") (camelit mn)
    (if (String.length (Endpoint.Group e) =? 0)%nat
     then camelit ns else Endpoint.Group e)
    (Endpoint.Name e) (Endpoint.JSON e) (Endpoint.Args e)
    (Endpoint.ReturnType e) (Endpoint.SkipToken e).

(** [groups] is the [map[string]struct{}] of the source, [group] the
    [map[string][]Endpoint]. *)
Definition grouping_step
    (acc : gset string * gmap string (list Endpoint.t))
    (endpoint : Endpoint.t)
  : option (gset string * gmap string (list Endpoint.t)) :=
  let '(groups, group) := acc in
  endpoint ← prepare endpoint;
  let group :=
    <[Endpoint.file endpoint :=
        default [] (group !! Endpoint.file endpoint) ++ [endpoint]]> group in
  let groups := {[Endpoint.Group endpoint]} ∪ groups in
  Some (groups, group).

Fixpoint grouping_from
    (acc : gset string * gmap string (list Endpoint.t))
    (endpoints : list Endpoint.t)
  : option (gset string * gmap string (list Endpoint.t)) :=
  match endpoints with
  | [] => Some acc
  | endpoint :: rest =>
      acc ← grouping_step acc endpoint; grouping_from acc rest
  end.

Definition grouping (endpoints : list Endpoint.t)
  : option (gset string * gmap string (list Endpoint.t)) :=
  grouping_from (∅, ∅) endpoints.

(** [group[endpoint.file] = append(group[endpoint.file], endpoint)] *)
Definition add_bucket (group : gmap string (list Endpoint.t))
    (endpoint : Endpoint.t) : gmap string (list Endpoint.t) :=
  <[Endpoint.file endpoint :=
      default [] (group !! Endpoint.file endpoint) ++ [endpoint]]> group.

(** The output unit of a prepared endpoint is named by its file, without
    the extension. *)
Definition output_unit (endpoint : Endpoint.t) : string :=
  strings.TrimSuffix (Endpoint.file endpoint) ".go".

(** ** Printing *)

Definition nl : string := String "010"%char EmptyString.
Definition dq : string := String "034"%char EmptyString.
Definition bs : string := String "092"%char EmptyString.

(** Concatenation of the pieces written to the buffer, in order. *)
Definition cat (pieces : list string) : string :=
  foldr String.append EmptyString pieces.

Module strconv.

Definition hex (n : nat) : string :=
  String (nth n (list_ascii_of_string "0123456789abcdef") "0"%char)
    EmptyString.

(** [strconv.Quote] on one byte of an ASCII string. *)
Definition quote_byte (c : ascii) : string :=
  let n := nat_of_ascii c in
  if (n =? 34)%nat then bs +:+ dq
  else if (n =? 92)%nat then bs +:+ bs
  else if (n =? 7)%nat then bs +:+ "a"
  else if (n =? 8)%nat then bs +:+ "b"
  else if (n =? 12)%nat then bs +:+ "f"
  else if (n =? 10)%nat then bs +:+ "n"
  else if (n =? 13)%nat then bs +:+ "r"
  else if (n =? 9)%nat then bs +:+ "t"
  else if (n =? 11)%nat then bs +:+ "v"
  else if (n <? 32)%nat || (n =? 127)%nat
  then bs +:+ "x" +:+ hex (n / 16) +:+ hex (n mod 16)
  else String c EmptyString.

Fixpoint quote_go (s : string) : string :=
  match s with
  | EmptyString => EmptyString
  | String c s' => quote_byte c +:+ quote_go s'
  end.

Definition Quote (s : string) : string := dq +:+ quote_go s +:+ dq.

(** [strconv.Itoa] *)
Definition Itoa (n : Z) : string := pretty n.

End strconv.

(** ** [generateServicesFile] *)

(** The text handed to the formatter.  [keys] is the order in which
    [range groups] visits the keys of the map. *)
Definition service_decl (g : string) : string :=
  cat [ nl; nl; "// "; g; "Service handles "; g; " related endpoints";
        nl; "type "; g; "Service struct {";
        nl; "client *httpClient";
        nl; "token string";
        nl; "}" ].

Definition generateServicesFile (keys : list string) : string :=
  let list := sort.Strings keys in
  cat [ "package slack";
        nl; nl;
        "// Auto-generated by internal/cmd/genmethods/genmethods.go. DO NOT EDIT!";
        cat (map service_decl list) ].

(** ** [generateServiceDetailsFile] *)

Section Emit.

Variable endpoint : Endpoint.t.

Let G := Endpoint.Group endpoint.
Let M := Endpoint.methodName endpoint.

(** The call-state type (first loop of the source). *)
Definition field_decl (arg : Argument.t) : string :=
  cat [ nl; Argument.Name arg; " "; Argument.Type_ arg;
        if (0 <? String.length (Argument.Comment arg))%nat
        then " // " +:+ Argument.Comment arg else "" ].

Definition call_type : string :=
  cat [ nl; "// "; G; M; "Call is created by "; G; "Service."; M;
        " method call";
        nl; "type "; G; M; "Call struct {";
        nl; "service *"; G; "Service";
        cat (map field_decl (Endpoint.Args endpoint));
        nl; "}" ].

(** The constructor. *)
Definition requiredArgNames : list string :=
  map Argument.Name (filter (fun arg => Argument.Required arg = true)
                       (Endpoint.Args endpoint)).

Definition requiredArgList : list string :=
  map (fun arg => Argument.Name arg +:+ " " +:+ Argument.Type_ arg)
    (filter (fun arg => Argument.Required arg = true)
       (Endpoint.Args endpoint)).

Definition constructor : string :=
  cat [ nl; nl; "// "; M; " creates a "; G; M;
        "Call object in preparation for accessing the ";
        Endpoint.Name endpoint; " endpoint";
        nl; "func (s *"; G; "Service) "; M; "(";
        strings.Join requiredArgList ", "; ") *"; G; M; "Call{";
        nl; "var call "; G; M; "Call";
        nl; "call.service = s";
        cat (map (fun arg => cat [nl; "call."; arg; " = "; arg])
               requiredArgNames);
        nl; "return &call";
        nl; "}" ].

(** The setters of one optional argument. *)
Definition singularName (arg : Argument.t) : string :=
  if strings.HasSuffix (Argument.Name arg) "es"
  then strings.TrimSuffix (Argument.Name arg) "es"
  else strings.TrimSuffix (Argument.Name arg) "s".

Definition singularType (arg : Argument.t) : string :=
  strings.TrimSuffix (Argument.Type_ arg) "List".

Definition setters (arg : Argument.t) : string :=
  if Argument.Required arg then ""
  else if strings.HasSuffix (Argument.Type_ arg) "List" then
    cat [ nl; nl; "// Set"; camelit (Argument.Name arg); " sets the ";
          Argument.Name arg; " list";
          nl; "func (c *"; G; M; "Call) Set"; camelit (Argument.Name arg);
          "("; Argument.Name arg; " "; Argument.Type_ arg; ") *"; G; M;
          "Call {";
          nl; "c."; Argument.Name arg; " = "; Argument.Name arg;
          nl; "return c";
          nl; "}";
          nl; nl; "// "; camelit (singularName arg); " appends to the ";
          Argument.Name arg; " list";
          nl; "func (c *"; G; M; "Call) "; camelit (singularName arg);
          "("; singularName arg; " *"; singularType arg; ") *"; G; M;
          "Call {";
          nl; "c."; Argument.Name arg; ".Append("; singularName arg; ")";
          nl; "return c";
          nl; "}" ]
  else
    cat [ nl; nl; "// "; camelit (Argument.Name arg);
          " sets the value for optional "; Argument.Name arg; " parameter";
          nl; "func (c *"; G; M; "Call) "; camelit (Argument.Name arg);
          "("; Argument.Name arg; " "; Argument.Type_ arg; ") *"; G; M;
          "Call {";
          nl; "c."; Argument.Name arg; " = "; Argument.Name arg;
          nl; "return c";
          nl; "}" ].

(** The four strings chosen by the [switch arg.Type] of the [Values]
    loop. *)
Definition is_simple (arg : Argument.t) : bool :=
  String.eqb (Argument.Type_ arg) "string"
  || String.eqb (Argument.Type_ arg) "bool"
  || String.eqb (Argument.Type_ arg) "int".

Definition requiredCheck (arg : Argument.t) : string :=
  let n := Argument.Name arg in
  if String.eqb (Argument.Type_ arg) "string"
  then cat [nl; "if len(c."; n; ") <= 0 {"]
  else if String.eqb (Argument.Type_ arg) "bool"
  then cat [nl; "if !c."; n; " {"]
  else if String.eqb (Argument.Type_ arg) "int"
  then cat [nl; "if c."; n; " == 0 {"]
  else if strings.HasSuffix (Argument.Type_ arg) "List"
  then cat [nl; "if len(c."; n; ") <= 0 {"]
  else cat [nl; "if c."; n; " == nil {"].

Definition optionalCheck (arg : Argument.t) : string :=
  let n := Argument.Name arg in
  if String.eqb (Argument.Type_ arg) "string"
  then cat [nl; "if len(c."; n; ") > 0 {"]
  else if String.eqb (Argument.Type_ arg) "bool"
  then cat [nl; "if c."; n; " {"]
  else if String.eqb (Argument.Type_ arg) "int"
  then cat [nl; "if c."; n; " > 0 {"]
  else if strings.HasSuffix (Argument.Type_ arg) "List"
  then cat [nl; "if len(c."; n; ") > 0 {"]
  else cat [nl; "if c."; n; " != nil {"].

Definition assignValue (arg : Argument.t) : string :=
  let n := Argument.Name arg in
  if String.eqb (Argument.Type_ arg) "string" then "c." +:+ n
  else if String.eqb (Argument.Type_ arg) "bool" then dq +:+ "true" +:+ dq
  else if String.eqb (Argument.Type_ arg) "int"
  then cat ["strconv.Itoa(c."; n; ")"]
  else n +:+ "Encoded".

Definition prelude (arg : Argument.t) : string :=
  let n := Argument.Name arg in
  if is_simple arg then ""
  else cat [ nl; n; "Encoded, err := c."; n; ".Encode()";
             nl; "if err != nil {";
             nl; "return nil, errors.Wrap(err, `failed to encode field`)";
             nl; "}" ].

Definition qn (arg : Argument.t) : string :=
  if (0 <? String.length (Argument.QueryName arg))%nat
  then Argument.QueryName arg else Argument.Name arg.

(** One round of the [Values] loop. *)
Definition values_arg (arg : Argument.t) : string :=
  cat [ nl;
        if Argument.Required arg
        then cat [ requiredCheck arg;
                   nl; "return nil, errors.New(`missing required parameter ";
                   Argument.Name arg; "`)";
                   nl; "}";
                   prelude arg ]
        else cat [ optionalCheck arg; prelude arg ];
        nl; "v.Set("; strconv.Quote (qn arg); ","; assignValue arg; ")";
        if negb (Argument.Required arg) then nl +:+ "}" else "" ].

Definition values_method : string :=
  cat [ nl; nl; "// Values returns the "; G; M; "Call object as url.Values";
        nl; "func (c *"; G; M; "Call) Values() (url.Values, error) {";
        nl; "v := url.Values{}";
        if negb (Endpoint.SkipToken endpoint)
        then nl +:+ "v.Set(`token`, c.service.token)" else "";
        cat (map values_arg (Endpoint.Args endpoint));
        nl; "return v, nil";
        nl; "}" ].

(** The [Do] method. *)
Definition hasReturn : bool :=
  (0 <? String.length (Endpoint.ReturnType endpoint))%nat.

Definition returnType : string :=
  if hasReturn
  then (if negb (strings.HasSuffix (Endpoint.ReturnType endpoint) "List")
        then "*" else "")
       +:+ Endpoint.ReturnType endpoint
  else "".

Definition nil_if_return : string := if hasReturn then "nil, " else "".

(** The name of the embedded payload field of [res]. *)
Definition payload_field : string :=
  let i := strings.LastIndexByte (Endpoint.ReturnType endpoint) "." in
  if (-1 <? i)%Z
  then default "" (slice_from (Endpoint.ReturnType endpoint) (i + 1))
  else Endpoint.ReturnType endpoint.

Definition do_method : string :=
  cat [ nl; "// Do executes the call to access "; Endpoint.Name endpoint;
        " endpoint";
        nl; "func (c *"; G; M; "Call) Do(ctx context.Context) ";
        if hasReturn then cat ["("; returnType; ", error)"] else "error";
        "{";
        nl; "const endpoint = "; strconv.Quote (Endpoint.Name endpoint);
        nl; "v, err := c.Values()";
        nl; "if err != nil {";
        nl; "return ";
        nil_if_return;
        "err";
        nl; "}";
        nl; "var res struct {";
        nl; "SlackResponse";
        if hasReturn
        then cat [ nl; returnType;
                   if negb (String.eqb (Endpoint.JSON endpoint) "")
                   then cat [" `json:"; dq; Endpoint.JSON endpoint; dq; "`"]
                   else "" ]
        else "";
        nl; "}";
        nl; "if err := c.service.client.postForm(ctx, endpoint, v, &res); err != nil {";
        nl; "return ";
        nil_if_return;
        "errors.Wrap(err, `failed to post to "; Endpoint.Name endpoint; "`)";
        nl; "}";
        nl; "if !res.OK {";
        nl; "return ";
        nil_if_return;
        "errors.New(res.Error.String())";
        nl; "}";
        nl; nl; "return ";
        if hasReturn then cat ["res."; payload_field; ", "] else "";
        "nil";
        nl; "}" ].

(** Everything the second loop of the source prints for the endpoint. *)
Definition call_methods : string :=
  cat [ constructor;
        cat (map setters (Endpoint.Args endpoint));
        values_method;
        do_method ].

End Emit.

(** Comparison of two records by a string key, as a [less] callback and
    as the order it sorts into. *)
Definition less_by {A} (key : A -> string) (a b : A) : bool :=
  strings.less (key a) (key b).

Definition le_by {A} (key : A -> string) (a b : A) : Prop :=
  String.le (key a) (key b).

(** The comparison callbacks of the two [sort.Slice] calls. *)
Definition endpoint_less (a b : Endpoint.t) : bool :=
  strings.less (Endpoint.Name a) (Endpoint.Name b).

Definition argument_less (a b : Argument.t) : bool :=
  strings.less (Argument.Name a) (Argument.Name b).

(** The first loop sorts [endpoint.Args] in place.  [endpoint] is a copy of
    the slice element, but its [Args] shares the backing array with the
    element, so the second loop sees the sorted arguments. *)
Definition sort_args (endpoint : Endpoint.t) : Endpoint.t :=
  Endpoint.set_Args (sort.Slice argument_less (Endpoint.Args endpoint))
    endpoint.

(** The orders in which the two sorts leave their slices. *)
Definition endpoint_le (a b : Endpoint.t) : Prop :=
  String.le (Endpoint.Name a) (Endpoint.Name b).

Definition argument_le (a b : Argument.t) : Prop :=
  String.le (Argument.Name a) (Argument.Name b).

Definition file_header : string :=
  cat [ nl; "package slack";
        nl; nl;
        "// Auto-generated by internal/cmd/genmethods/genmethods.go. DO NOT EDIT!";
        nl; nl; "import (";
        cat (map (fun pkg => nl +:+ strconv.Quote pkg)
               ["context"; "net/url"; "strconv"]);
        nl;
        cat (map (fun pkg => nl +:+ strconv.Quote pkg)
               ["github.com/lestrrat/go-slack/objects";
                "github.com/pkg/errors"]);
        nl; ")";
        nl; nl; "var _ = strconv.Itoa";
        nl; "var _ = objects.EpochTime(0)" ].

(** The text handed to the formatter for one file. *)
Definition generateServiceDetailsFile (endpoints : list Endpoint.t) : string :=
  let endpoints := sort.Slice endpoint_less endpoints in
  let endpoints := map sort_args endpoints in
  cat [ file_header;
        cat (map call_type endpoints);
        cat (map call_methods endpoints) ].

(** ** [_main] *)

(** The files of a run, by name, holding the text handed to the formatter
    (the formatter is a function of that text; a failure of the formatter
    or of the file system is outside the model). *)
Definition write_file (fs : gmap string string)
    (entry : string * list Endpoint.t) : gmap string string :=
  <[entry.1 := generateServiceDetailsFile entry.2]> fs.

(** [services.go] is written first, then one file per bucket; [keys] and
    [buckets] are the orders in which [range groups] and [range group]
    visit the two maps. *)
Definition emit (keys : list string)
    (buckets : list (string * list Endpoint.t)) : gmap string string :=
  foldl write_file {[ "services.go" := generateServicesFile keys ]} buckets.

(** A run of [_main] on the decoded catalog.  [range] over a Go map visits
    the entries in an order that is not specified: every enumeration of the
    map is a possible order.  [None] is the panic of the grouping loop. *)
Inductive main_run (endpoints : list Endpoint.t)
  : option (gmap string string) -> Prop :=
| main_panic :
    grouping endpoints = None -> main_run endpoints None
| main_done groups group keys buckets :
    grouping endpoints = Some (groups, group) ->
    keys ≡ₚ elements groups ->
    buckets ≡ₚ map_to_list group ->
    main_run endpoints (Some (emit keys buckets)).

(** The loop body as a total function, for catalogs on which it does not
    panic. *)
Definition prepare_total (endpoint : Endpoint.t) : Endpoint.t :=
  default endpoint (prepare endpoint).

(** The endpoints of [bucket] in the order, and with the arguments in the
    order, in which [generateServiceDetailsFile] prints them. *)
Definition print_order (bucket : list Endpoint.t) : list Endpoint.t :=
  map sort_args (sort.Slice endpoint_less bucket).

(** No two endpoints of the catalog have the same name, and no two
    arguments of an endpoint have the same name. *)
Definition unique_names (endpoints : list Endpoint.t) : Prop :=
  NoDup (Endpoint.Name <$> endpoints)
  /\ Forall (fun e => NoDup (Argument.Name <$> Endpoint.Args e)) endpoints.

(** The same endpoint with its arguments listed in another order. *)
Definition same_endpoint (e e' : Endpoint.t) : Prop :=
  e' = Endpoint.set_Args (Endpoint.Args e') e
  /\ Endpoint.Args e ≡ₚ Endpoint.Args e'.

(** The same catalog in another order: the endpoints permuted, and the
    arguments of each endpoint permuted. *)
Definition same_catalog (endpoints endpoints' : list Endpoint.t) : Prop :=
  exists mid, endpoints ≡ₚ mid /\ Forall2 same_endpoint mid endpoints'.

(** ** The generated code *)

(** The statements printed for the setters, [Values] and [Do], as syntax.
    The printers below give back the text of the generator
    ([render_setters], [render_values], [render_do]). *)
Module Go.

(** Conditions on a field [c.f] of the call-state. *)
Inductive cond :=
| LenLe0 (f : string)   (* len(c.f) <= 0 *)
| LenGt0 (f : string)   (* len(c.f) > 0 *)
| IsFalse (f : string)  (* !c.f *)
| IsTrue (f : string)   (* c.f *)
| EqZero (f : string)   (* c.f == 0 *)
| GtZero (f : string)   (* c.f > 0 *)
| EqNil (f : string)    (* c.f == nil *)
| NeNil (f : string).   (* c.f != nil *)

Inductive expr :=
| Field (f : string)    (* c.f *)
| StrLit (s : string)   (* a string literal *)
| Itoa (f : string)     (* strconv.Itoa(c.f) *)
| Local (x : string).   (* a local variable *)

Inductive simple :=
| SetToken                         (* v.Set(`token`, c.service.token) *)
| Require (c : cond) (name : string)
    (* if c { return nil, errors.New(`missing required parameter name`) } *)
| Encode (f : string)
    (* fEncoded, err := c.f.Encode()
       if err != nil { return nil, errors.Wrap(err, `failed to encode field`) } *)
| VSet (key : string) (e : expr).  (* v.Set("key", e) *)

Inductive stmt :=
| Blank
| Plain (s : simple)
| If (c : cond) (body : list simple).

Inductive setter_body :=
| Assign (f x : string)    (* c.f = x *)
| Append (f x : string).   (* c.f.Append(x) *)

(** [func (c *<recv>Call) <name>(<param> <ptype>) *<recv>Call] with its
    comment line; the body ends in [return c]. *)
Record method := {
  comment : string;
  recv : string;
  name : string;
  param : string;
  ptype : string;
  body : setter_body
}.

(** The statements of [Do]; [ret] tells whether the method also returns
    a payload. *)
Inductive do_stmt :=
| ConstEndpoint (endpoint : string)
    (* const endpoint = "endpoint" *)
| VarRes (payload : option (string * string))
    (* var res struct { SlackResponse; [type `json:"tag"`] } *)
| CallValues (ret : bool)
    (* v, err := c.Values(); if err != nil { return [nil,] err } *)
| PostForm (endpoint : string) (ret : bool)
    (* if err := c.service.client.postForm(ctx, endpoint, v, &res); err != nil {
         return [nil,] errors.Wrap(err, `failed to post to endpoint`) } *)
| CheckOK (ret : bool)
    (* if !res.OK { return [nil,] errors.New(res.Error.String()) } *)
| Return (field : option string).
    (* return [res.field,] nil *)

Definition render_cond (c : cond) : string :=
  match c with
  | LenLe0 f => cat ["len(c."; f; ") <= 0"]
  | LenGt0 f => cat ["len(c."; f; ") > 0"]
  | IsFalse f => cat ["!c."; f]
  | IsTrue f => cat ["c."; f]
  | EqZero f => cat ["c."; f; " == 0"]
  | GtZero f => cat ["c."; f; " > 0"]
  | EqNil f => cat ["c."; f; " == nil"]
  | NeNil f => cat ["c."; f; " != nil"]
  end.

Definition render_expr (e : expr) : string :=
  match e with
  | Field f => "c." +:+ f
  | StrLit s => strconv.Quote s
  | Itoa f => cat ["strconv.Itoa(c."; f; ")"]
  | Local x => x
  end.

Definition render_simple (s : simple) : string :=
  match s with
  | SetToken => nl +:+ "v.Set(`token`, c.service.token)"
  | Require c n =>
      cat [ nl; "if "; render_cond c; " {";
            nl; "return nil, errors.New(`missing required parameter "; n;
            "`)";
            nl; "}" ]
  | Encode f =>
      cat [ nl; f; "Encoded, err := c."; f; ".Encode()";
            nl; "if err != nil {";
            nl; "return nil, errors.Wrap(err, `failed to encode field`)";
            nl; "}" ]
  | VSet key e => cat [nl; "v.Set("; strconv.Quote key; ","; render_expr e; ")"]
  end.

Definition render_stmt (s : stmt) : string :=
  match s with
  | Blank => nl
  | Plain s => render_simple s
  | If c body =>
      cat [ nl; "if "; render_cond c; " {";
            cat (map render_simple body);
            nl; "}" ]
  end.

Definition render_setter_body (b : setter_body) : string :=
  match b with
  | Assign f x => cat [nl; "c."; f; " = "; x]
  | Append f x => cat [nl; "c."; f; ".Append("; x; ")"]
  end.

Definition render_method (m : method) : string :=
  cat [ nl; nl; "// "; comment m;
        nl; "func (c *"; recv m; "Call) "; name m; "("; param m; " ";
        ptype m; ") *"; recv m; "Call {";
        render_setter_body (body m);
        nl; "return c";
        nl; "}" ].

Definition render_nil (ret : bool) : string := if ret then "nil, " else "".

Definition render_do_stmt (s : do_stmt) : string :=
  match s with
  | ConstEndpoint endpoint =>
      cat [nl; "const endpoint = "; strconv.Quote endpoint]
  | VarRes payload =>
      cat [ nl; "var res struct {";
            nl; "SlackResponse";
            match payload with
            | Some (ty, tag) =>
                cat [ nl; ty;
                      if negb (String.eqb tag "")
                      then cat [" `json:"; dq; tag; dq; "`"] else "" ]
            | None => ""
            end;
            nl; "}" ]
  | CallValues ret =>
      cat [ nl; "v, err := c.Values()";
            nl; "if err != nil {";
            nl; "return "; render_nil ret; "err";
            nl; "}" ]
  | PostForm endpoint ret =>
      cat [ nl; "if err := c.service.client.postForm(ctx, endpoint, v, &res); err != nil {";
            nl; "return "; render_nil ret;
            "errors.Wrap(err, `failed to post to "; endpoint; "`)";
            nl; "}" ]
  | CheckOK ret =>
      cat [ nl; "if !res.OK {";
            nl; "return "; render_nil ret; "errors.New(res.Error.String())";
            nl; "}" ]
  | Return field =>
      cat [ nl; nl; "return ";
            match field with
            | Some f => cat ["res."; f; ", "]
            | None => ""
            end;
            "nil" ]
  end.

End Go.

(** The generator, read as producing that syntax. *)
Section Syntax.

Variable endpoint : Endpoint.t.

Let G := Endpoint.Group endpoint.
Let M := Endpoint.methodName endpoint.

Definition setter_methods (arg : Argument.t) : list Go.method :=
  let n := Argument.Name arg in
  if Argument.Required arg then []
  else if strings.HasSuffix (Argument.Type_ arg) "List" then
    [ {| Go.comment := cat ["Set"; camelit n; " sets the "; n; " list"];
         Go.recv := G +:+ M;
         Go.name := "Set" +:+ camelit n;
         Go.param := n;
         Go.ptype := Argument.Type_ arg;
         Go.body := Go.Assign n n |};
      {| Go.comment :=
           cat [camelit (singularName arg); " appends to the "; n; " list"];
         Go.recv := G +:+ M;
         Go.name := camelit (singularName arg);
         Go.param := singularName arg;
         Go.ptype := "*" +:+ singularType arg;
         Go.body := Go.Append n (singularName arg) |} ]
  else
    [ {| Go.comment :=
           cat [camelit n; " sets the value for optional "; n; " parameter"];
         Go.recv := G +:+ M;
         Go.name := camelit n;
         Go.param := n;
         Go.ptype := Argument.Type_ arg;
         Go.body := Go.Assign n n |} ].

Definition required_cond (arg : Argument.t) : Go.cond :=
  let n := Argument.Name arg in
  if String.eqb (Argument.Type_ arg) "string" then Go.LenLe0 n
  else if String.eqb (Argument.Type_ arg) "bool" then Go.IsFalse n
  else if String.eqb (Argument.Type_ arg) "int" then Go.EqZero n
  else if strings.HasSuffix (Argument.Type_ arg) "List" then Go.LenLe0 n
  else Go.EqNil n.

Definition optional_cond (arg : Argument.t) : Go.cond :=
  let n := Argument.Name arg in
  if String.eqb (Argument.Type_ arg) "string" then Go.LenGt0 n
  else if String.eqb (Argument.Type_ arg) "bool" then Go.IsTrue n
  else if String.eqb (Argument.Type_ arg) "int" then Go.GtZero n
  else if strings.HasSuffix (Argument.Type_ arg) "List" then Go.LenGt0 n
  else Go.NeNil n.

Definition assign_expr (arg : Argument.t) : Go.expr :=
  let n := Argument.Name arg in
  if String.eqb (Argument.Type_ arg) "string" then Go.Field n
  else if String.eqb (Argument.Type_ arg) "bool" then Go.StrLit "true"
  else if String.eqb (Argument.Type_ arg) "int" then Go.Itoa n
  else Go.Local (n +:+ "Encoded").

Definition prelude_stmts (arg : Argument.t) : list Go.simple :=
  if is_simple arg then [] else [Go.Encode (Argument.Name arg)].

Definition values_arg_stmts (arg : Argument.t) : list Go.stmt :=
  Go.Blank ::
  if Argument.Required arg
  then Go.Plain (Go.Require (required_cond arg) (Argument.Name arg))
       :: map Go.Plain
            (prelude_stmts arg ++ [Go.VSet (qn arg) (assign_expr arg)])
  else [ Go.If (optional_cond arg)
           (prelude_stmts arg ++ [Go.VSet (qn arg) (assign_expr arg)]) ].

(** The body of [Values] between [v := url.Values{}] and
    [return v, nil]. *)
Definition values_stmts : list Go.stmt :=
  (if negb (Endpoint.SkipToken endpoint) then [Go.Plain Go.SetToken] else [])
  ++ concat (map values_arg_stmts (Endpoint.Args endpoint)).

(** The statements of [Do]. *)
Definition do_stmts : list Go.do_stmt :=
  [ Go.ConstEndpoint (Endpoint.Name endpoint);
    Go.CallValues (hasReturn endpoint);
    Go.VarRes (if hasReturn endpoint
               then Some (returnType endpoint, Endpoint.JSON endpoint)
               else None);
    Go.PostForm (Endpoint.Name endpoint) (hasReturn endpoint);
    Go.CheckOK (hasReturn endpoint);
    Go.Return (if hasReturn endpoint then Some (payload_field endpoint)
               else None) ].

End Syntax.

(** ** What the generated code does *)

(** The [objects] package is not part of the generator: the elements of a
    list type, the objects behind a pointer type, and their [Encode]
    methods (a string or an error) are an interface. *)
Class Objects := {
  Elem : Type;
  Obj : Type;
  EncodeList : list Elem -> string + string;
  EncodeObj : Obj -> string + string
}.

(** An instance to run examples with: elements and objects are strings, a
    list encodes to its elements joined by commas, except that a list with
    the element ["bad"] fails to encode. *)
Definition example_objects : Objects :=
  {| Elem := string;
     Obj := string;
     EncodeList l :=
       if bool_decide ("bad" ∈ l) then inr "bad element"
       else inl (strings.Join l ",");
     EncodeObj o := inl o |}.

(** [url.Values] is [map[string][]string]. *)
Abbreviation url_Values := (gmap string (list string)).

Module errors.
(** An [error] is its message. *)
Definition New (msg : string) : string := msg.
Definition Wrap (err msg : string) : string := msg +:+ ": " +:+ err.
End errors.

(** The decoded response: [SlackResponse] and the embedded payload. *)
Record Envelope (P : Type) := {
  OK : bool;
  Error : string;
  Payload : option P
}.
Arguments OK {P}.
Arguments Error {P}.
Arguments Payload {P}.

Section Semantics.

Context `{Objects}.

(** The value of a field of a call-state, by the Go type of the field. *)
Inductive Value :=
| VString (s : string)
| VBool (b : bool)
| VInt (n : Z)
| VList (l : list Elem)
| VPtr (o : option Obj).

(** A call-state: the token of its service and its fields. *)
Record Call := {
  token : string;
  fields : gmap string Value
}.

Definition set_field (f : string) (x : Value) (c : Call) : Call :=
  {| token := token c; fields := <[f := x]> (fields c) |}.

(** [None] is a condition that does not type-check on the field. *)
Definition eval_cond (c : Call) (b : Go.cond) : option bool :=
  match b with
  | Go.LenLe0 f =>
      match fields c !! f with
      | Some (VString s) => Some (String.length s <=? 0)%nat
      | Some (VList l) => Some (length l <=? 0)%nat
      | _ => None
      end
  | Go.LenGt0 f =>
      match fields c !! f with
      | Some (VString s) => Some (0 <? String.length s)%nat
      | Some (VList l) => Some (0 <? length l)%nat
      | _ => None
      end
  | Go.IsFalse f =>
      match fields c !! f with
      | Some (VBool x) => Some (negb x)
      | _ => None
      end
  | Go.IsTrue f =>
      match fields c !! f with
      | Some (VBool x) => Some x
      | _ => None
      end
  | Go.EqZero f =>
      match fields c !! f with
      | Some (VInt n) => Some (n =? 0)%Z
      | _ => None
      end
  | Go.GtZero f =>
      match fields c !! f with
      | Some (VInt n) => Some (0 <? n)%Z
      | _ => None
      end
  | Go.EqNil f =>
      match fields c !! f with
      | Some (VPtr o) =>
          Some (match o with None => true | Some _ => false end)
      | _ => None
      end
  | Go.NeNil f =>
      match fields c !! f with
      | Some (VPtr o) =>
          Some (match o with None => false | Some _ => true end)
      | _ => None
      end
  end.

Definition eval_expr (c : Call) (locals : gmap string string) (e : Go.expr)
  : option string :=
  match e with
  | Go.Field f =>
      match fields c !! f with
      | Some (VString s) => Some s
      | _ => None
      end
  | Go.StrLit s => Some s
  | Go.Itoa f =>
      match fields c !! f with
      | Some (VInt n) => Some (strconv.Itoa n)
      | _ => None
      end
  | Go.Local x => locals !! x
  end.

(** [c.f.Encode()]; [None] when the field has no such method, or is a
    nil pointer. *)
Definition encode_field (c : Call) (f : string) : option (string + string) :=
  match fields c !! f with
  | Some (VList l) => Some (EncodeList l)
  | Some (VPtr (Some o)) => Some (EncodeObj o)
  | _ => None
  end.

(** Where control is after a statement: at the next statement, with the
    mapping [v] and the local variables; returned from the routine with
    the pair [(v, err)] ([None] is [nil]); or stuck on ill-typed code. *)
Inductive flow :=
| Next (v : url_Values) (locals : gmap string string)
| Returned (v : option url_Values) (err : option string)
| Stuck.

Definition exec_simple (c : Call) (s : Go.simple)
    (v : url_Values) (locals : gmap string string) : flow :=
  match s with
  | Go.SetToken => Next (<["token" := [token c]]> v) locals
  | Go.Require b n =>
      match eval_cond c b with
      | Some true =>
          Returned None
            (Some (errors.New ("missing required parameter " +:+ n)))
      | Some false => Next v locals
      | None => Stuck
      end
  | Go.Encode f =>
      match encode_field c f with
      | Some (inl s) => Next v (<[f +:+ "Encoded" := s]> locals)
      | Some (inr err) =>
          Returned None (Some (errors.Wrap err "failed to encode field"))
      | None => Stuck
      end
  | Go.VSet key e =>
      match eval_expr c locals e with
      | Some x => Next (<[key := [x]]> v) locals
      | None => Stuck
      end
  end.

Fixpoint exec_simples (c : Call) (ss : list Go.simple)
    (v : url_Values) (locals : gmap string string) : flow :=
  match ss with
  | [] => Next v locals
  | s :: ss' =>
      match exec_simple c s v locals with
      | Next v' locals' => exec_simples c ss' v' locals'
      | r => r
      end
  end.

(** The variables declared inside an [if] block end with it. *)
Definition exec_stmt (c : Call) (s : Go.stmt)
    (v : url_Values) (locals : gmap string string) : flow :=
  match s with
  | Go.Blank => Next v locals
  | Go.Plain s => exec_simple c s v locals
  | Go.If b body =>
      match eval_cond c b with
      | Some true =>
          match exec_simples c body v locals with
          | Next v' _ => Next v' locals
          | r => r
          end
      | Some false => Next v locals
      | None => Stuck
      end
  end.

Fixpoint exec_stmts (c : Call) (ss : list Go.stmt)
    (v : url_Values) (locals : gmap string string) : flow :=
  match ss with
  | [] => Next v locals
  | s :: ss' =>
      match exec_stmt c s v locals with
      | Next v' locals' => exec_stmts c ss' v' locals'
      | r => r
      end
  end.

(** The generated [Values] method of the endpoint, run on a call-state:
    [v := url.Values{}], the statements, [return v, nil]. *)
Definition Values (endpoint : Endpoint.t) (c : Call) : flow :=
  match exec_stmts c (values_stmts endpoint) ∅ ∅ with
  | Next v _ => Returned (Some v) None
  | r => r
  end.

(** *** The call-states of an endpoint, and the emptiness tests *)

(** The Go type [ty] of a field and the values it holds, following the
    [switch arg.Type] of the generator. *)
Definition has_type (ty : string) (val : Value) : bool :=
  if String.eqb ty "string"
  then match val with VString _ => true | _ => false end
  else if String.eqb ty "bool"
  then match val with VBool _ => true | _ => false end
  else if String.eqb ty "int"
  then match val with VInt _ => true | _ => false end
  else if strings.HasSuffix ty "List"
  then match val with VList _ => true | _ => false end
  else match val with VPtr _ => true | _ => false end.

Definition arg_typed (c : Call) (arg : Argument.t) : Prop :=
  exists val, fields c !! Argument.Name arg = Some val
              /\ has_type (Argument.Type_ arg) val = true.

(** [c] is a call-state of the endpoint: it has one field per argument,
    of the type of the argument. *)
Definition call_of (endpoint : Endpoint.t) (c : Call) : Prop :=
  Forall (arg_typed c) (Endpoint.Args endpoint).

(** The emptiness test: the value counts as unset. *)
Definition is_unset (val : Value) : bool :=
  match val with
  | VString s => (String.length s =? 0)%nat
  | VBool b => negb b
  | VInt n => (n =? 0)%Z
  | VList l => (length l =? 0)%nat
  | VPtr o => match o with None => true | Some _ => false end
  end.

(** The test under which the generated code writes an optional
    argument. *)
Definition optional_set (val : Value) : bool :=
  match val with
  | VInt n => (0 <? n)%Z
  | _ => negb (is_unset val)
  end.

(** What one round of the [Values] loop does for an argument whose field
    holds [val]. *)
Definition write_arg (arg : Argument.t) (val : Value)
    (v : url_Values) (locals : gmap string string) : flow :=
  let encoded (r : string + string) :=
    match r with
    | inl s =>
        Next (<[qn arg := [s]]> v)
          (if Argument.Required arg
           then <[Argument.Name arg +:+ "Encoded" := s]> locals
           else locals)
    | inr err =>
        Returned None (Some (errors.Wrap err "failed to encode field"))
    end in
  match val with
  | VString s => Next (<[qn arg := [s]]> v) locals
  | VBool _ => Next (<[qn arg := ["true"]]> v) locals
  | VInt n => Next (<[qn arg := [strconv.Itoa n]]> v) locals
  | VList l => encoded (EncodeList l)
  | VPtr (Some o) => encoded (EncodeObj o)
  | VPtr None => Next v locals
  end.

Definition arg_effect (arg : Argument.t) (val : Value)
    (v : url_Values) (locals : gmap string string) : flow :=
  if Argument.Required arg
  then if is_unset val
       then Returned None
              (Some ("missing required parameter " +:+ Argument.Name arg))
       else write_arg arg val v locals
  else if optional_set val then write_arg arg val v locals
       else Next v locals.

(** A setter called with a value for the field, or with one element for
    a list.  [Append] is the method of the list types of [objects];
    it adds the element at the end. *)
Definition run_setter (b : Go.setter_body) (c : Call) (x : Value + Elem)
  : option Call :=
  match b, x with
  | Go.Assign f _, inl x => Some (set_field f x c)
  | Go.Append f _, inr e =>
      match fields c !! f with
      | Some (VList l) => Some (set_field f (VList (l ++ [e])) c)
      | _ => None
      end
  | _, _ => None
  end.

(** *** [Do] *)

Section Do.

Context {P : Type}.

(** The transport: [postForm(ctx, endpoint, v, &res)] fills [res] or
    gives an error. *)
Variable postForm : string -> url_Values -> Envelope P + string.

(** The variables of [Do]. *)
Record do_state := {
  d_endpoint : string;
  d_v : url_Values;
  d_res : Envelope P
}.

Inductive do_flow :=
| DoNext (st : do_state)
| DoReturned (payload : option P) (err : option string)
| DoStuck.

Definition exec_do_stmt (endpoint : Endpoint.t) (c : Call)
    (s : Go.do_stmt) (st : do_state) : do_flow :=
  match s with
  | Go.ConstEndpoint n =>
      DoNext {| d_endpoint := n; d_v := d_v st; d_res := d_res st |}
  | Go.VarRes _ =>
      DoNext {| d_endpoint := d_endpoint st; d_v := d_v st;
                d_res := {| OK := false; Error := ""; Payload := None |} |}
  | Go.CallValues _ =>
      match Values endpoint c with
      | Returned _ (Some err) => DoReturned None (Some err)
      | Returned (Some v) None =>
          DoNext {| d_endpoint := d_endpoint st; d_v := v;
                    d_res := d_res st |}
      | _ => DoStuck
      end
  | Go.PostForm n _ =>
      match postForm (d_endpoint st) (d_v st) with
      | inr err =>
          DoReturned None
            (Some (errors.Wrap err ("failed to post to " +:+ n)))
      | inl res =>
          DoNext {| d_endpoint := d_endpoint st; d_v := d_v st;
                    d_res := res |}
      end
  | Go.CheckOK _ =>
      if negb (OK (d_res st))
      then DoReturned None (Some (errors.New (Error (d_res st))))
      else DoNext st
  | Go.Return field =>
      DoReturned
        (match field with
         | Some _ => Payload (d_res st)
         | None => None
         end)
        None
  end.

Fixpoint exec_do_stmts (endpoint : Endpoint.t) (c : Call)
    (ss : list Go.do_stmt) (st : do_state) : do_flow :=
  match ss with
  | [] => DoStuck          (* a function body without a return *)
  | s :: ss' =>
      match exec_do_stmt endpoint c s st with
      | DoNext st' => exec_do_stmts endpoint c ss' st'
      | r => r
      end
  end.

(** The generated [Do] method of the endpoint, run on a call-state. *)
Definition Do (endpoint : Endpoint.t) (c : Call) : do_flow :=
  exec_do_stmts endpoint c (do_stmts endpoint)
    {| d_endpoint := ""; d_v := ∅;
       d_res := {| OK := false; Error := ""; Payload := None |} |}.

End Do.

End Semantics.



(** ** An example catalog entry *)

(** [chat.postMessage] as the grouping loop leaves it, with one argument
    of each kind. *)
Definition example_arg (name ty : string) (required : bool) : Argument.t :=
  Argument.mk name ty required "" "" "".

Definition example_endpoint : Endpoint.t :=
  Endpoint.mk "chat.go" "PostMessage" "Chat" "chat.postMessage" "message"
    [ example_arg "text" "string" false;
      example_arg "channel" "string" true;
      example_arg "users" "objects.UserList" false;
      example_arg "count" "int" false;
      example_arg "as_user" "bool" false ]
    "objects.Message" false.

Definition example_call (channel : string) (as_user : bool) (count : Z)
    (users : list string) : @Call example_objects :=
  {| token := "T";
     fields :=
       list_to_map
         [ ("text", VString ""); ("channel", VString channel);
           ("users", @VList example_objects users); ("count", VInt count);
           ("as_user", VBool as_user) ] |}.

(** An endpoint with the one integer argument [count], required or not. *)
Definition example_int_endpoint (required : bool) : Endpoint.t :=
  Endpoint.mk "x.go" "Y" "X" "x.y" "" [example_arg "count" "int" required]
    "" false.

(** A catalog of two endpoints as the decoder leaves it, and the same
    catalog with the endpoints and the arguments in another order. *)
Definition example_catalog : list Endpoint.t :=
  [ Endpoint.mk "" "" "" "chat.postMessage" "message"
      [ example_arg "text" "string" false;
        example_arg "channel" "string" true ]
      "objects.Message" false;
    Endpoint.mk "" "" "" "users.list" "members" [] "objects.UserList" false ].

Definition example_catalog_reordered : list Endpoint.t :=
  [ Endpoint.mk "" "" "" "users.list" "members" [] "objects.UserList" false;
    Endpoint.mk "" "" "" "chat.postMessage" "message"
      [ example_arg "channel" "string" true;
        example_arg "text" "string" false ]
      "objects.Message" false ].

(** The two endpoints of [example_catalog]. *)
Definition example_chat : Endpoint.t :=
  Endpoint.mk "" "" "" "chat.postMessage" "message"
    [ example_arg "text" "string" false;
      example_arg "channel" "string" true ]
    "objects.Message" false.

Definition example_users : Endpoint.t :=
  Endpoint.mk "" "" "" "users.list" "members" [] "objects.UserList" false.

(** An endpoint of the namespace [services]. *)
Definition example_services : Endpoint.t :=
  Endpoint.mk "" "" "" "services.list" "" [] "" false.

(** A transport that answers every call with the same envelope. *)
Definition example_postForm (res : Envelope string)
  : string -> url_Values -> Envelope string + string :=
  fun _ _ => inl res.

(** ** The printed syntax is the generator's text *)

#[local] Arguments String.append !s1 s2 : simpl nomatch.

Lemma append_assoc (a b c : string) : (a +:+ b) +:+ c = a +:+ (b +:+ c).
Proof. induction a as [|x a IH]; simpl; [reflexivity|]. by rewrite IH. Qed.

Lemma append_nil_r (s : string) : s +:+ "" = s.
Proof. induction s as [|x s IH]; simpl; [reflexivity|]. by rewrite IH. Qed.

Lemma cat_app (l1 l2 : list string) : cat (l1 ++ l2) = cat l1 +:+ cat l2.
Proof.
  induction l1 as [|x l1 IH]; simpl; [reflexivity|].
  by rewrite IH, append_assoc.
Qed.

Lemma cat_pair (a b : string) : cat [a; b] = a +:+ b.
Proof. unfold cat. simpl. by rewrite append_nil_r. Qed.

(** Both sides are concatenations of the same pieces. *)
Ltac text_eq :=
  unfold cat; simpl;
  repeat (progress (rewrite ?append_assoc, ?append_nil_r; simpl));
  reflexivity.

Lemma render_setters (endpoint : Endpoint.t) (arg : Argument.t) :
  cat (map Go.render_method (setter_methods endpoint arg)) = setters endpoint arg.
Proof.
  unfold setter_methods, setters.
  destruct (Argument.Required arg); [reflexivity|].
  destruct (strings.HasSuffix (Argument.Type_ arg) "List");
    unfold Go.render_method, Go.render_setter_body; text_eq.
Qed.

Lemma cat_concat_map {A} (f : A -> list Go.stmt) (l : list A) :
  cat (map Go.render_stmt (concat (map f l)))
  = cat (map (fun a => cat (map Go.render_stmt (f a))) l).
Proof.
  induction l as [|a l IH]; simpl; [reflexivity|].
  by rewrite map_app, cat_app, IH.
Qed.

Lemma render_values_arg (arg : Argument.t) :
  cat (map Go.render_stmt (values_arg_stmts arg)) = values_arg arg.
Proof.
  unfold values_arg_stmts, values_arg, prelude_stmts, prelude, required_cond,
    optional_cond, requiredCheck, optionalCheck, assign_expr, assignValue,
    is_simple.
  destruct (Argument.Required arg);
    destruct (String.eqb (Argument.Type_ arg) "string");
    destruct (String.eqb (Argument.Type_ arg) "bool");
    destruct (String.eqb (Argument.Type_ arg) "int");
    destruct (strings.HasSuffix (Argument.Type_ arg) "List");
    unfold strconv.Quote; text_eq.
Qed.

Lemma render_values (endpoint : Endpoint.t) :
  values_method endpoint
  = cat [ nl; nl; "// Values returns the "; Endpoint.Group endpoint;
          Endpoint.methodName endpoint; "Call object as url.Values";
          nl; "func (c *"; Endpoint.Group endpoint;
          Endpoint.methodName endpoint; "Call) Values() (url.Values, error) {";
          nl; "v := url.Values{}";
          cat (map Go.render_stmt (values_stmts endpoint));
          nl; "return v, nil";
          nl; "}" ].
Proof.
  unfold values_method, values_stmts.
  rewrite map_app, cat_app, cat_concat_map.
  rewrite (map_ext (fun a => cat (map Go.render_stmt (values_arg_stmts a)))
             values_arg) by (intros; apply render_values_arg).
  destruct (Endpoint.SkipToken endpoint); text_eq.
Qed.

Lemma render_do (endpoint : Endpoint.t) :
  do_method endpoint
  = cat [ nl; "// Do executes the call to access "; Endpoint.Name endpoint;
          " endpoint";
          nl; "func (c *"; Endpoint.Group endpoint;
          Endpoint.methodName endpoint; "Call) Do(ctx context.Context) ";
          if hasReturn endpoint
          then cat ["("; returnType endpoint; ", error)"] else "error";
          "{";
          cat (map Go.render_do_stmt (do_stmts endpoint));
          nl; "}" ].
Proof.
  unfold do_method, do_stmts, nil_if_return.
  destruct (hasReturn endpoint); cbn [map Go.render_do_stmt Go.render_nil];
    [destruct (String.eqb (Endpoint.JSON endpoint) "")|]; text_eq.
Qed.

(** ** Strings *)

Lemma length_append (a b : string) :
  String.length (a +:+ b) = String.length a + String.length b.
Proof. induction a as [|x a IH]; simpl; [reflexivity|]. by rewrite IH. Qed.

Lemma substring_0_append (a b : string) :
  substring 0 (String.length a) (a +:+ b) = a.
Proof.
  induction a as [|x a IH]; simpl.
  - by destruct b.
  - by rewrite IH.
Qed.

Lemma substring_0_length (a : string) : substring 0 (String.length a) a = a.
Proof. rewrite <- (append_nil_r a) at 2. apply substring_0_append. Qed.

Lemma substring_append_r (a b : string) :
  substring (String.length a) (String.length b) (a +:+ b) = b.
Proof.
  induction a as [|x a IH]; simpl; [apply substring_0_length|apply IH].
Qed.

Lemma contains_append (c : ascii) (a b : string) :
  contains c (a +:+ b) = contains c a || contains c b.
Proof.
  induction a as [|x a IH]; simpl; [reflexivity|].
  by rewrite IH, orb_assoc.
Qed.

Lemma LastIndexByte_go_absent (s : string) (c : ascii) (i last : Z) :
  contains c s = false -> strings.LastIndexByte_go s c i last = last.
Proof.
  revert i last. induction s as [|x s IH]; intros i last Hc; simpl in *.
  - reflexivity.
  - apply orb_false_iff in Hc as [Hx Hs]. rewrite Hx. by apply IH.
Qed.

Lemma LastIndexByte_go_present (s : string) (c : ascii) (i last : Z) :
  contains c s = true ->
  exists pre post,
    s = pre +:+ String c post /\ contains c post = false /\
    strings.LastIndexByte_go s c i last = (i + Z.of_nat (String.length pre))%Z.
Proof.
  revert i last. induction s as [|x s IH]; intros i last Hc; simpl in *.
  - discriminate.
  - destruct (contains c s) eqn:Hs.
    + destruct (IH (i + 1)%Z (if Ascii.eqb x c then i else last) eq_refl)
        as (pre & post & -> & Hpost & Hr).
      exists (String x pre), post. simpl. repeat split; [done|]. lia.
    + rewrite orb_false_r in Hc. rewrite Hc.
      apply Ascii.eqb_eq in Hc as ->.
      exists EmptyString, s. simpl. repeat split; [done|].
      rewrite LastIndexByte_go_absent by done. lia.
Qed.

Lemma LastIndexByte_absent (s : string) (c : ascii) :
  contains c s = false -> strings.LastIndexByte s c = (-1)%Z.
Proof. apply LastIndexByte_go_absent. Qed.

Lemma LastIndexByte_present (s : string) (c : ascii) :
  contains c s = true ->
  exists pre post,
    s = pre +:+ String c post /\ contains c post = false /\
    strings.LastIndexByte s c = Z.of_nat (String.length pre).
Proof.
  intros Hc.
  destruct (LastIndexByte_go_present s c 0 (-1) Hc) as (pre & post & ? & ? & ?).
  exists pre, post. repeat split; [done..|]. unfold strings.LastIndexByte. lia.
Qed.

Lemma slice_to_append (a b : string) :
  slice_to (a +:+ b) (Z.of_nat (String.length a)) = Some a.
Proof.
  unfold slice_to. rewrite length_append.
  replace (_ && _) with true
    by (symmetry; apply andb_true_iff; split; apply Z.leb_le; lia).
  by rewrite Nat2Z.id, substring_0_append.
Qed.

Lemma slice_from_append (a : string) (c : ascii) (b : string) :
  slice_from (a +:+ String c b) (Z.of_nat (String.length a) + 1) = Some b.
Proof.
  unfold slice_from. rewrite length_append. simpl.
  replace (_ && _) with true
    by (symmetry; apply andb_true_iff; split; apply Z.leb_le; lia).
  replace (Z.to_nat (Z.of_nat (String.length a) + 1))
    with (String.length (a +:+ String c EmptyString))
    by (rewrite length_append; simpl; lia).
  replace (String.length a + S (String.length b)
           - String.length (a +:+ String c EmptyString))
    with (String.length b) by (rewrite length_append; simpl; lia).
  replace (a +:+ String c b) with ((a +:+ String c EmptyString) +:+ b)
    by (by rewrite append_assoc).
  by rewrite substring_append_r.
Qed.

Lemma slice_to_negative (s : string) (i : Z) : (i < 0)%Z -> slice_to s i = None.
Proof.
  intros Hi. unfold slice_to.
  replace (0 <=? i)%Z with false by (symmetry; apply Z.leb_gt; lia). done.
Qed.

(** ** [prepare] *)

Lemma prepare_dotted (e : Endpoint.t) :
  contains "." (Endpoint.Name e) = true ->
  exists ns mn,
    Endpoint.Name e = ns +:+ String "." mn /\ contains "." mn = false /\
    strings.LastIndexByte (Endpoint.Name e) "." = Z.of_nat (String.length ns) /\
    prepare e = Some (prepared ns mn e).
Proof.
  intros Hc.
  destruct (LastIndexByte_present _ _ Hc) as (ns & mn & Hn & Hmn & Hi).
  exists ns, mn. repeat split; [done..|].
  unfold prepare, prepared. rewrite Hi. clear Hi Hc.
  destruct e as [f m g n j a r t]; simpl in *; subst n.
  rewrite slice_to_append; simpl.
  destruct (String.length g =? 0)%nat; simpl;
    by rewrite slice_from_append.
Qed.

Lemma prepare_undotted (e : Endpoint.t) :
  contains "." (Endpoint.Name e) = false -> prepare e = None.
Proof.
  intros Hc. unfold prepare.
  rewrite (LastIndexByte_absent _ _ Hc), slice_to_negative by lia. done.
Qed.

Lemma substring_split (s : string) (n : nat) :
  n <= String.length s ->
  s = substring 0 n s +:+ substring n (String.length s - n) s.
Proof.
  revert n. induction s as [|x s IH]; intros [|n] Hn; simpl in *;
    try lia; try reflexivity.
  - by rewrite substring_0_length.
  - rewrite <- IH by lia. done.
Qed.

Lemma HasSuffix_append (p suffix : string) :
  strings.HasSuffix (p +:+ suffix) suffix = true.
Proof.
  unfold strings.HasSuffix. rewrite length_append.
  replace (String.length p + String.length suffix - String.length suffix)
    with (String.length p) by lia.
  rewrite substring_append_r, String.eqb_refl, andb_true_r.
  apply Nat.leb_le. lia.
Qed.

Lemma HasSuffix_inv (s suffix : string) :
  strings.HasSuffix s suffix = true -> exists p, s = p +:+ suffix.
Proof.
  unfold strings.HasSuffix. intros [Hl He]%andb_true_iff.
  apply Nat.leb_le in Hl. apply String.eqb_eq in He.
  exists (substring 0 (String.length s - String.length suffix) s).
  pose proof (substring_split s (String.length s - String.length suffix))
    as Hs.
  replace (String.length s - (String.length s - String.length suffix))
    with (String.length suffix) in Hs by lia.
  rewrite He in Hs. apply Hs. lia.
Qed.

Lemma TrimSuffix_append (p suffix : string) :
  strings.TrimSuffix (p +:+ suffix) suffix = p.
Proof.
  unfold strings.TrimSuffix. rewrite HasSuffix_append, length_append.
  replace (String.length p + String.length suffix - String.length suffix)
    with (String.length p) by lia.
  apply substring_0_append.
Qed.

Lemma TrimSuffix_absent (s suffix : string) :
  strings.HasSuffix s suffix = false -> strings.TrimSuffix s suffix = s.
Proof. unfold strings.TrimSuffix. by intros ->. Qed.

(** ** The grouping loop *)

Lemma grouping_from_mapM (endpoints : list Endpoint.t)
    (groups : gset string) (group : gmap string (list Endpoint.t)) :
  grouping_from (groups, group) endpoints
  = es ← mapM prepare endpoints;
    Some (list_to_set (Endpoint.Group <$> es) ∪ groups,
          foldl add_bucket group es).
Proof.
  revert groups group.
  induction endpoints as [|e endpoints IH]; intros groups group; simpl.
  - by rewrite (left_id_L ∅ (∪)).
  - destruct (prepare e) as [e'|]; simpl; [|done].
    rewrite IH. destruct (mapM prepare endpoints) as [es|]; simpl; [|done].
    by rewrite (assoc_L (∪)), (comm_L (∪) (list_to_set _)).
Qed.

Lemma grouping_mapM (endpoints : list Endpoint.t) :
  grouping endpoints
  = es ← mapM prepare endpoints;
    Some (list_to_set (Endpoint.Group <$> es), foldl add_bucket ∅ es).
Proof.
  unfold grouping. rewrite grouping_from_mapM.
  destruct (mapM prepare endpoints); simpl; [|done].
  by rewrite (right_id_L ∅ (∪)).
Qed.

Lemma bucket_lookup (es : list Endpoint.t)
    (group : gmap string (list Endpoint.t)) (k : string) :
  default [] (foldl add_bucket group es !! k)
  = default [] (group !! k) ++ filter (fun e => Endpoint.file e = k) es.
Proof.
  revert group. induction es as [|e es IH]; intros group; simpl.
  - by rewrite app_nil_r.
  - rewrite IH. unfold add_bucket at 1.
    destruct (decide (Endpoint.file e = k)) as [Heq|Hne].
    + rewrite Heq, lookup_insert_eq. rewrite (filter_cons_True _ e) by done.
      simpl. by rewrite <- app_assoc.
    + rewrite lookup_insert_ne by done.
      by rewrite (filter_cons_False _ e) by done.
Qed.

Lemma bucket_is_Some (es : list Endpoint.t)
    (group : gmap string (list Endpoint.t)) (k : string) :
  is_Some (foldl add_bucket group es !! k)
  <-> is_Some (group !! k) \/ exists e, e ∈ es /\ Endpoint.file e = k.
Proof.
  revert group. induction es as [|e es IH]; intros group; simpl.
  - split; [auto|]. intros [?|(e & He & _)]; [done|]. by inv He.
  - rewrite IH. unfold add_bucket at 1.
    destruct (decide (Endpoint.file e = k)) as [Heq|Hne].
    + rewrite Heq, lookup_insert_eq. split.
      * intros _. right. exists e. split; [left|done].
      * intros _. left. eauto.
    + rewrite lookup_insert_ne by done. split.
      * intros [?|(e' & He' & ?)]; [auto|].
        right. exists e'. split; [by right|done].
      * intros [?|(e' & He' & ?)]; [auto|].
        apply elem_of_cons in He' as [->|He']; [done|]. right. eauto.
Qed.

Lemma add_bucket_concat (group : gmap string (list Endpoint.t))
    (e : Endpoint.t) :
  concat (snd <$> map_to_list (add_bucket group e))
  ≡ₚ concat (snd <$> map_to_list group) ++ [e].
Proof.
  unfold add_bucket. destruct (group !! Endpoint.file e) as [l|] eqn:Hk; simpl.
  - rewrite <- insert_delete_eq.
    rewrite map_to_list_insert by apply lookup_delete_eq.
    rewrite <- (map_to_list_delete group _ _ Hk). simpl.
    rewrite <- !app_assoc. apply Permutation_app_head, Permutation_app_comm.
  - rewrite map_to_list_insert by done. simpl.
    apply Permutation_cons_append.
Qed.

Lemma buckets_concat (es : list Endpoint.t)
    (group : gmap string (list Endpoint.t)) :
  concat (snd <$> map_to_list (foldl add_bucket group es))
  ≡ₚ concat (snd <$> map_to_list group) ++ es.
Proof.
  revert group. induction es as [|e es IH]; intros group; simpl.
  - by rewrite app_nil_r.
  - rewrite IH, add_bucket_concat, <- app_assoc. done.
Qed.

Lemma prepare_None_iff (e : Endpoint.t) :
  prepare e = None <-> contains "." (Endpoint.Name e) = false.
Proof.
  split; [|apply prepare_undotted].
  destruct (contains "." (Endpoint.Name e)) eqn:Hc; [|done].
  destruct (prepare_dotted e Hc) as (ns & mn & _ & _ & _ & ->). done.
Qed.

(** ** The name transform: claims *)

Lemma ToUpper_upper (r : ascii) :
  unicode.IsUpper r = true -> unicode.ToUpper r = r.
Proof.
  unfold unicode.IsUpper, unicode.ToUpper.
  intros [H1 H2]%andb_true_iff.
  apply Nat.leb_le in H1. apply Nat.leb_le in H2.
  destruct (97 <=? nat_of_ascii r)%nat eqn:E; [|done].
  apply Nat.leb_le in E. lia.
Qed.

Lemma camelit_go_plain (s : string) :
  has_separator s = false -> camelit_go false false s = s.
Proof.
  unfold has_separator. induction s as [|r s IH]; simpl; [done|].
  intros [[Hd Hs]%orb_false_iff [Hu Hs']%orb_false_iff]%orb_false_iff.
  rewrite Hd, Hu. simpl. rewrite IH; [done|]. by rewrite Hs, Hs'.
Qed.

(** C4 (the code departs from the claim).  The claim: the output of the
    name transform never contains ['.'] or ['_'], also when a separator is
    the first byte or follows another separator.  The code tests
    [i == 0 || upnext] before it tests for a separator, so a separator in
    such a place is written out: ["a..b"] becomes ["A.b"], [".a"] stays
    [".a"], and ["a__b"] becomes ["A_b"].  The grouping loop calls the
    transform on such a string for an endpoint named ["a..b.c"], whose
    group becomes ["A.b"]. *)
Theorem camelit_emits_separator :
  camelit "a..b" = "A.b" /\ has_separator (camelit "a..b") = true /\
  camelit ".a" = ".a" /\ has_separator (camelit ".a") = true /\
  camelit "a__b" = "A_b" /\ has_separator (camelit "a__b") = true /\
  Endpoint.Group
    <$> prepare (Endpoint.mk "" "" "" "a..b.c" "" [] "" false)
  = Some "A.b".
Proof. repeat split; reflexivity. Qed.

(** C5.  [camelit] maps ["chat.postMessage"] to ["ChatPostMessage"] and
    ["a_b.c"] to ["ABC"], the empty string to the empty string, and is the
    identity on every string without ['.'] and ['_'] whose first byte is an
    upper-case letter (so applying it twice to such a string changes
    nothing either). *)
Theorem camelit_examples_identity (r : ascii) (s : string) :
  unicode.IsUpper r = true ->
  has_separator (String r s) = false ->
  camelit "chat.postMessage" = "ChatPostMessage" /\
  camelit "a_b.c" = "ABC" /\
  camelit "" = "" /\
  camelit (String r s) = String r s /\
  camelit (camelit (String r s)) = camelit (String r s).
Proof.
  intros Hr Hs.
  assert (Hid : camelit (String r s) = String r s).
  { unfold camelit. simpl. rewrite (ToUpper_upper r Hr). f_equal.
    apply camelit_go_plain.
    unfold has_separator in *. simpl in Hs.
    apply orb_false_iff in Hs as [[_ H1]%orb_false_iff [_ H2]%orb_false_iff].
    by rewrite H1, H2. }
  repeat split; try reflexivity; [done|]. by rewrite Hid.
Qed.

Lemma camelit_examples_identity_witness :
  camelit "chat.postMessage" = "ChatPostMessage" /\
  camelit "a_b.c" = "ABC" /\
  camelit "" = "" /\
  camelit "ChatPostMessage" = "ChatPostMessage" /\
  camelit (camelit "ChatPostMessage") = camelit "ChatPostMessage".
Proof.
  apply (camelit_examples_identity "C" "hatPostMessage"); reflexivity.
Defined.

(** ** The grouping loop: claims *)

(** C10.  The grouping loop panics exactly when some endpoint name has no
    ['.']: for such a name [strings.LastIndexByte] is [-1], the slice
    [Name[:i]] is out of range and the loop body panics; when every name
    has a ['.'] the loop runs to its end. *)
Theorem grouping_panics_without_dot (endpoints : list Endpoint.t) :
  (forall e, contains "." (Endpoint.Name e) = false ->
     strings.LastIndexByte (Endpoint.Name e) "." = (-1)%Z /\
     slice_to (Endpoint.Name e) (-1) = None /\
     prepare e = None) /\
  (grouping endpoints = None <->
     exists e, e ∈ endpoints /\ contains "." (Endpoint.Name e) = false) /\
  ((forall e, e ∈ endpoints -> contains "." (Endpoint.Name e) = true) ->
     is_Some (grouping endpoints)).
Proof.
  assert (Hnone : grouping endpoints = None <->
     exists e, e ∈ endpoints /\ contains "." (Endpoint.Name e) = false).
  { rewrite grouping_mapM.
    transitivity (mapM prepare endpoints = None).
    { destruct (mapM prepare endpoints); simpl; split; done. }
    rewrite mapM_None, Exists_exists.
    split; intros (e & He & Hp); exists e; split; try done.
    - by apply prepare_None_iff.
    - by apply prepare_None_iff. }
  split; [|split; [exact Hnone|]].
  - intros e Hc. split; [by apply LastIndexByte_absent|].
    split; [by apply slice_to_negative|by apply prepare_undotted].
  - intros Hall. destruct (grouping endpoints) as [r|] eqn:Hg; [eauto|].
    destruct (proj1 Hnone eq_refl) as (e & He & Hc).
    rewrite (Hall e He) in Hc. done.
Qed.

Lemma grouping_panics_without_dot_witness :
  grouping [Endpoint.mk "" "" "" "chat.postMessage" "" [] "" false;
            Endpoint.mk "" "" "" "nodot" "" [] "" false] = None /\
  is_Some (grouping [Endpoint.mk "" "" "" "chat.postMessage" "" [] "" false]).
Proof.
  split.
  - apply (proj1 (proj2 (grouping_panics_without_dot _))).
    exists (Endpoint.mk "" "" "" "nodot" "" [] "" false).
    split; [right; left|reflexivity].
  - apply (proj2 (proj2 (grouping_panics_without_dot _))).
    intros e He. apply list_elem_of_singleton in He as ->. reflexivity.
Defined.

Lemma Forall2_elem_of_r {A B} (P : A -> B -> Prop) (l : list A) (k k0 : list B) :
  Forall2 P l k -> k ⊆ k0 -> Forall2 (fun x y => P x y /\ y ∈ k0) l k.
Proof.
  induction 1 as [|x y l k HP HF IH]; intros Hsub; constructor.
  - split; [done|]. apply Hsub. by left.
  - apply IH. intros z Hz. apply Hsub. by right.
Qed.

Lemma output_unit_prepared (ns mn : string) (e : Endpoint.t) :
  output_unit (prepared ns mn e) = strings.Replace ns "." "_".
Proof. unfold output_unit, prepared. simpl. apply TrimSuffix_append. Qed.

(** C8.  When the grouping loop has run over the catalog, with [es] the
    endpoints as the loop body left them: an endpoint named [ns.mn], [mn]
    without a dot, whose group was empty has the group [camelit ns]; its
    file is [ns] with every dot replaced by an underscore, followed by
    [.go] (so that the file without the extension, the output unit, is [ns]
    with dots replaced by underscores); it is in the bucket of its file and
    in no other bucket, and the buckets together hold the endpoints once
    each; the group set lists no group twice and holds exactly the groups
    of the endpoints. *)
Theorem grouping_invariants (endpoints : list Endpoint.t)
    (groups : gset string) (group : gmap string (list Endpoint.t)) :
  grouping endpoints = Some (groups, group) ->
  exists es : list Endpoint.t,
    Forall2
      (fun e e' =>
         exists ns mn,
           Endpoint.Name e = ns +:+ "." +:+ mn /\
           contains "." mn = false /\
           (String.length (Endpoint.Group e) = 0 ->
            Endpoint.Group e' = camelit ns) /\
           Endpoint.file e' = strings.Replace ns "." "_" +:+ ".go" /\
           output_unit e' = strings.Replace ns "." "_" /\
           (forall k, e' ∈ default [] (group !! k) <-> k = Endpoint.file e'))
      endpoints es /\
    concat (snd <$> map_to_list group) ≡ₚ es /\
    NoDup (elements groups) /\
    (forall g, g ∈ elements groups <-> exists e', e' ∈ es /\ Endpoint.Group e' = g).
Proof.
  rewrite grouping_mapM.
  destruct (mapM prepare endpoints) as [es|] eqn:Hm; simpl; [|done].
  intros [= <- <-]. exists es. split; [|split; [|split]].
  - apply mapM_Some in Hm.
    eapply Forall2_impl; [apply (Forall2_elem_of_r _ _ _ es Hm); done|].
    intros e e' [Hp He'].
    destruct (contains "." (Endpoint.Name e)) eqn:Hc;
      [|by rewrite prepare_undotted in Hp].
    destruct (prepare_dotted e Hc) as (ns & mn & Hn & Hmn & _ & Hp').
    rewrite Hp' in Hp. injection Hp as <-.
    exists ns, mn. split; [done|]. split; [done|]. split.
    { intros Hg. simpl. by rewrite Hg. }
    split; [done|]. split; [apply output_unit_prepared|].
    intros k. rewrite bucket_lookup, lookup_empty. simpl.
    rewrite list_elem_of_filter. split; [by intros [Hk _]|].
    intros Hk. by subst k.
  - rewrite buckets_concat, map_to_list_empty. done.
  - apply NoDup_elements.
  - intros g. rewrite elem_of_elements, elem_of_list_to_set, list_elem_of_fmap.
    split; intros (e' & ? & ?); exists e'; done.
Qed.

Lemma grouping_invariants_witness :
  exists es : list Endpoint.t,
    Forall2
      (fun e e' =>
         exists ns mn,
           Endpoint.Name e = ns +:+ "." +:+ mn /\
           contains "." mn = false /\
           (String.length (Endpoint.Group e) = 0 ->
            Endpoint.Group e' = camelit ns) /\
           Endpoint.file e' = strings.Replace ns "." "_" +:+ ".go" /\
           output_unit e' = strings.Replace ns "." "_" /\
           (forall k,
              e' ∈ default []
                     (({[ "chat.go" :=
                            [Endpoint.mk "chat.go" "PostMessage" "Chat"
                               "chat.postMessage" "" [] "" false] ]}
                       : gmap string (list Endpoint.t)) !! k)
              <-> k = Endpoint.file e'))
      [Endpoint.mk "" "" "" "chat.postMessage" "" [] "" false] es /\
    concat
      (snd <$> map_to_list
                 ({[ "chat.go" :=
                       [Endpoint.mk "chat.go" "PostMessage" "Chat"
                          "chat.postMessage" "" [] "" false] ]}
                  : gmap string (list Endpoint.t))) ≡ₚ es /\
    NoDup (elements ({[ "Chat" ]} : gset string)) /\
    (forall g, g ∈ elements ({[ "Chat" ]} : gset string)
               <-> exists e', e' ∈ es /\ Endpoint.Group e' = g).
Proof.
  apply (grouping_invariants
           [Endpoint.mk "" "" "" "chat.postMessage" "" [] "" false]).
  vm_compute. reflexivity.
Defined.

(** ** Sorting *)

Lemma less_le (a b : string) : strings.less a b = true -> String.le a b.
Proof.
  unfold strings.less, String.le, String.ltb, String.leb.
  by destruct (String.compare a b).
Qed.

Lemma not_less_le (a b : string) : strings.less a b = false -> String.le b a.
Proof.
  unfold strings.less, String.le, String.ltb, String.leb.
  rewrite (String.compare_antisym b a).
  by destruct (String.compare a b).
Qed.

Section SortBy.

Context {A : Type} (key : A -> string).

#[local] Abbreviation less := (less_by key).
#[local] Abbreviation le := (le_by key).

#[local] Instance le_key_trans : Transitive le.
Proof. intros a b c. unfold le_by. apply transitivity. Qed.

Lemma insert_Permutation (x : A) (l : list A) :
  sort.insert less x l ≡ₚ x :: l.
Proof.
  induction l as [|y l IH]; simpl; [done|].
  destruct (less x y); [done|]. rewrite IH. apply Permutation_swap.
Qed.

Lemma Slice_Permutation (l : list A) : sort.Slice less l ≡ₚ l.
Proof.
  induction l as [|x l IH]; simpl; [done|].
  fold (sort.Slice less l). by rewrite insert_Permutation, IH.
Qed.

Lemma insert_Sorted (x : A) (l : list A) :
  Sorted le l -> Sorted le (sort.insert less x l).
Proof.
  induction l as [|y l IH]; simpl; intros Hl.
  - by repeat constructor.
  - destruct (less x y) eqn:Hxy.
    + constructor; [done|]. constructor. by apply less_le.
    + apply Sorted_inv in Hl as [Hl Hy]. constructor; [by apply IH|].
      destruct l as [|z l]; simpl.
      * constructor. by apply not_less_le.
      * destruct (less x z); constructor.
        -- by apply not_less_le.
        -- by inv Hy.
Qed.

Lemma Slice_Sorted (l : list A) : Sorted le (sort.Slice less l).
Proof.
  induction l as [|x l IH]; simpl; [constructor|].
  by apply insert_Sorted.
Qed.

Lemma NoDup_key_inj (l : list A) (x y : A) :
  NoDup (key <$> l) -> x ∈ l -> y ∈ l -> key x = key y -> x = y.
Proof.
  induction l as [|z l IH]; simpl; intros Hnd Hx Hy Hk; [by inv Hx|].
  apply NoDup_cons in Hnd as [Hz Hnd].
  apply elem_of_cons in Hx as [->|Hx]; apply elem_of_cons in Hy as [->|Hy];
    try done.
  - exfalso. apply Hz. rewrite Hk. by apply list_elem_of_fmap_2.
  - exfalso. apply Hz. rewrite <- Hk. by apply list_elem_of_fmap_2.
  - by apply IH.
Qed.

(** With distinct keys there is one ordered permutation: whatever
    [sort.Slice] does with equal keys, its result is this one. *)
Lemma Sorted_key_unique (l1 l2 : list A) :
  NoDup (key <$> l1) -> l1 ≡ₚ l2 ->
  Sorted le l1 -> Sorted le l2 -> l1 = l2.
Proof.
  intros Hnd Hp H1 H2.
  apply (Sorted_unique_strong le); [|done..].
  intros x1 x2 Hx1 Hx2 H12 H21.
  apply (NoDup_key_inj l1); [done|done|by rewrite Hp|].
  by apply (anti_symm String.le).
Qed.

Lemma Slice_key_unique (l1 l2 : list A) :
  NoDup (key <$> l1) -> l1 ≡ₚ l2 ->
  sort.Slice less l1 = sort.Slice less l2.
Proof.
  intros Hnd Hp. apply Sorted_key_unique.
  - by rewrite Slice_Permutation.
  - by rewrite !Slice_Permutation.
  - apply Slice_Sorted.
  - apply Slice_Sorted.
Qed.

End SortBy.

Lemma Strings_Permutation (l : list string) : sort.Strings l ≡ₚ l.
Proof. apply (Slice_Permutation id). Qed.

Lemma Strings_Sorted (l : list string) : Sorted String.le (sort.Strings l).
Proof. apply (Slice_Sorted id). Qed.

Lemma Strings_unique (l1 l2 : list string) :
  l1 ≡ₚ l2 -> sort.Strings l1 = sort.Strings l2.
Proof.
  intros Hp. apply (Sorted_unique String.le).
  - apply Strings_Sorted.
  - apply Strings_Sorted.
  - by rewrite !Strings_Permutation.
Qed.

Lemma sort_args_Sorted (e : Endpoint.t) :
  Sorted argument_le (Endpoint.Args (sort_args e)).
Proof. apply (Slice_Sorted Argument.Name). Qed.

Lemma sort_args_Permutation (e : Endpoint.t) :
  Endpoint.Args (sort_args e) ≡ₚ Endpoint.Args e.
Proof. apply (Slice_Permutation Argument.Name). Qed.

(** ** The [Values] routine *)

Section ValuesFacts.

Context `{Objects}.

Lemma exec_stmts_app (c : Call) (l1 l2 : list Go.stmt)
    (v : url_Values) (locals : gmap string string) :
  exec_stmts c (l1 ++ l2) v locals
  = match exec_stmts c l1 v locals with
    | Next v' locals' => exec_stmts c l2 v' locals'
    | r => r
    end.
Proof.
  revert v locals. induction l1 as [|s l1 IH]; intros v locals; simpl.
  - done.
  - destruct (exec_stmt c s v locals); auto.
Qed.

(** One round of the loop does what [arg_effect] says. *)
Lemma exec_arg (c : Call) (arg : Argument.t) (val : Value)
    (v : url_Values) (locals : gmap string string) :
  fields c !! Argument.Name arg = Some val ->
  has_type (Argument.Type_ arg) val = true ->
  exec_stmts c (values_arg_stmts arg) v locals = arg_effect arg val v locals.
Proof.
  intros Hf Ht.
  unfold values_arg_stmts, arg_effect, write_arg, required_cond,
    optional_cond, assign_expr, prelude_stmts, is_simple, has_type in *.
  destruct (Argument.Required arg);
    destruct (String.eqb (Argument.Type_ arg) "string");
    [| destruct (String.eqb (Argument.Type_ arg) "bool");
       [| destruct (String.eqb (Argument.Type_ arg) "int");
          [| destruct (strings.HasSuffix (Argument.Type_ arg) "List")]]
     | | destruct (String.eqb (Argument.Type_ arg) "bool");
       [| destruct (String.eqb (Argument.Type_ arg) "int");
          [| destruct (strings.HasSuffix (Argument.Type_ arg) "List")]]];
    destruct val as [s|b|n|l|[o|]]; try discriminate Ht;
    simpl; unfold encode_field; rewrite ?Hf; simpl.
  all: try (destruct s; simpl; rewrite ?Hf; reflexivity).
  all: try (destruct b; simpl; rewrite ?Hf; reflexivity).
  all: try (destruct (n =? 0)%Z; simpl; rewrite ?Hf; reflexivity).
  all: try (destruct (0 <? n)%Z; simpl; rewrite ?Hf; reflexivity).
  all: try (destruct l; simpl; rewrite ?Hf; simpl;
            [reflexivity|];
            match goal with |- context [EncodeList ?x] =>
              destruct (EncodeList x) end; simpl;
            rewrite ?lookup_insert_eq; reflexivity).
  all: try (destruct (EncodeObj o); simpl;
            rewrite ?lookup_insert_eq; reflexivity).
  all: try reflexivity.
Qed.

(** The mapping with which the loop starts. *)
Lemma Values_unfold (endpoint : Endpoint.t) (c : Call) :
  Values endpoint c
  = match
      exec_stmts c (concat (map values_arg_stmts (Endpoint.Args endpoint)))
        (if Endpoint.SkipToken endpoint then ∅
         else {[ "token" := [token c] ]})
        ∅
    with
    | Next v _ => Returned (Some v) None
    | r => r
    end.
Proof.
  unfold Values, values_stmts.
  by destruct (Endpoint.SkipToken endpoint).
Qed.

Lemma exec_args_cons (c : Call) (arg : Argument.t) (val : Value)
    (args : list Argument.t) (v : url_Values) (locals : gmap string string) :
  fields c !! Argument.Name arg = Some val ->
  has_type (Argument.Type_ arg) val = true ->
  exec_stmts c (concat (map values_arg_stmts (arg :: args))) v locals
  = match arg_effect arg val v locals with
    | Next v' locals' =>
        exec_stmts c (concat (map values_arg_stmts args)) v' locals'
    | r => r
    end.
Proof.
  intros Hf Ht.
  change (concat (map values_arg_stmts (arg :: args)))
    with (values_arg_stmts arg ++ concat (map values_arg_stmts args)).
  by rewrite exec_stmts_app, (exec_arg c arg val).
Qed.

(** A round of the loop goes on to the next one, or returns [nil] and an
    error. *)
Lemma arg_effect_cases (arg : Argument.t) (val : Value)
    (v : url_Values) (locals : gmap string string) :
  (exists v' locals', arg_effect arg val v locals = Next v' locals')
  \/ (exists err, arg_effect arg val v locals = Returned None (Some err)).
Proof.
  unfold arg_effect, write_arg.
  destruct (Argument.Required arg), (is_unset val), (optional_set val),
    val as [?|?|?|l|[o|]];
    try destruct (EncodeList l); try destruct (EncodeObj o); eauto.
Qed.

(** A required argument that is unset stops the loop, whatever came
    before. *)
Lemma exec_args_fail (c : Call) (args : list Argument.t) (arg : Argument.t)
    (val : Value) (v : url_Values) (locals : gmap string string) :
  Forall (arg_typed c) args ->
  arg ∈ args ->
  Argument.Required arg = true ->
  fields c !! Argument.Name arg = Some val ->
  is_unset val = true ->
  exists err,
    exec_stmts c (concat (map values_arg_stmts args)) v locals
    = Returned None (Some err).
Proof.
  intros Ht Hin Hreq Hf Hu. revert v locals.
  induction Ht as [|a args (vala & Hfa & Hta) Ht IH]; intros v locals.
  - by inv Hin.
  - rewrite (exec_args_cons c a vala) by done.
    destruct (arg_effect_cases a vala v locals)
      as [(v' & locals' & Heff)|(err & Heff)]; rewrite Heff; [|eauto].
    apply elem_of_cons in Hin as [->|Hin]; [|by apply IH].
    exfalso. rewrite Hfa in Hf. injection Hf as ->.
    unfold arg_effect in Heff. by rewrite Hreq, Hu in Heff.
Qed.

(** An argument that is not a missing required one and whose field
    encodes goes on to the next round. *)
Lemma arg_effect_passes (c : Call) (arg : Argument.t) (val : Value)
    (v : url_Values) (locals : gmap string string) :
  fields c !! Argument.Name arg = Some val ->
  (Argument.Required arg = true -> is_unset val = false) ->
  (forall err, encode_field c (Argument.Name arg) <> Some (inr err)) ->
  exists v' locals', arg_effect arg val v locals = Next v' locals'.
Proof.
  intros Hf Hreq Henc. unfold arg_effect, write_arg.
  unfold encode_field in Henc. rewrite Hf in Henc.
  destruct (Argument.Required arg).
  - rewrite Hreq by done.
    destruct val as [?|?|?|l|[o|]]; eauto.
    + destruct (EncodeList l) as [?|err]; [eauto|]. by destruct (Henc err).
    + destruct (EncodeObj o) as [?|err]; [eauto|]. by destruct (Henc err).
  - destruct (optional_set val); [|eauto].
    destruct val as [?|?|?|l|[o|]]; eauto.
    + destruct (EncodeList l) as [?|err]; [eauto|]. by destruct (Henc err).
    + destruct (EncodeObj o) as [?|err]; [eauto|]. by destruct (Henc err).
Qed.

Lemma exec_args_first_missing (c : Call) (pre : list Argument.t)
    (arg : Argument.t) (post : list Argument.t) (val : Value)
    (v : url_Values) (locals : gmap string string) :
  Forall (arg_typed c) (pre ++ arg :: post) ->
  Argument.Required arg = true ->
  fields c !! Argument.Name arg = Some val ->
  is_unset val = true ->
  (forall b valb, b ∈ pre -> fields c !! Argument.Name b = Some valb ->
     (Argument.Required b = true -> is_unset valb = false) /\
     (forall err, encode_field c (Argument.Name b) <> Some (inr err))) ->
  exec_stmts c (concat (map values_arg_stmts (pre ++ arg :: post))) v locals
  = Returned None
      (Some ("missing required parameter " +:+ Argument.Name arg)).
Proof.
  intros Ht Hreq Hf Hu Hpre. revert v locals.
  induction pre as [|b pre IH]; intros v locals; simpl app in *.
  - apply Forall_cons in Ht as [(val' & Hf' & Ht') _].
    rewrite (exec_args_cons c arg val') by done.
    rewrite Hf in Hf'. injection Hf' as <-.
    unfold arg_effect. by rewrite Hreq, Hu.
  - apply Forall_cons in Ht as [(valb & Hfb & Htb) Ht].
    rewrite (exec_args_cons c b valb) by done.
    destruct (Hpre b valb) as [Hb1 Hb2]; [by left|done|].
    destruct (arg_effect_passes c b valb v locals Hfb Hb1 Hb2)
      as (v' & locals' & ->).
    apply IH; [done|]. intros b' valb' Hb'. apply Hpre. by right.
Qed.

(** The generated test of a required argument is the emptiness test. *)
Lemma required_cond_unset (c : Call) (arg : Argument.t) (val : Value) :
  fields c !! Argument.Name arg = Some val ->
  has_type (Argument.Type_ arg) val = true ->
  eval_cond c (required_cond arg) = Some (is_unset val).
Proof.
  intros Hf Ht. unfold required_cond, has_type in *.
  destruct (String.eqb (Argument.Type_ arg) "string");
    [| destruct (String.eqb (Argument.Type_ arg) "bool");
       [| destruct (String.eqb (Argument.Type_ arg) "int");
          [| destruct (strings.HasSuffix (Argument.Type_ arg) "List")]]];
    destruct val as [s|b|n|l|[o|]]; try discriminate Ht;
    simpl; rewrite Hf; try reflexivity.
  - by destruct s.
  - by destruct l.
Qed.


(** A round of the loop writes no key but its own. *)
Lemma arg_effect_other_key (arg : Argument.t) (val : Value) (k : string)
    (v v' : url_Values) (locals locals' : gmap string string) :
  arg_effect arg val v locals = Next v' locals' ->
  qn arg <> k -> v' !! k = v !! k.
Proof.
  unfold arg_effect, write_arg. intros Heff Hk.
  destruct (Argument.Required arg), (is_unset val), (optional_set val),
    val as [?|?|?|l|[o|]];
    try destruct (EncodeList l); try destruct (EncodeObj o);
    simplify_eq; try done; by rewrite lookup_insert_ne.
Qed.

(** The key of an argument at the end of the loop, when no other argument
    writes it and the round of the argument either writes [s] there
    ([set]) or nothing. *)
Lemma exec_args_key (c : Call) (args : list Argument.t)
    (arg : Argument.t) (val : Value) (set : bool) (s : string)
    (v v' : url_Values) (locals locals' : gmap string string) :
  Forall (arg_typed c) args ->
  fields c !! Argument.Name arg = Some val ->
  (forall v0 l0,
     arg_effect arg val v0 l0
     = Next (if set then <[qn arg := [s]]> v0 else v0) l0) ->
  (forall a, a ∈ args -> a <> arg -> qn a <> qn arg) ->
  exec_stmts c (concat (map values_arg_stmts args)) v locals
  = Next v' locals' ->
  (set = false -> v' !! qn arg = v !! qn arg) /\
  (set = true -> arg ∈ args \/ v !! qn arg = Some [s] ->
   v' !! qn arg = Some [s]).
Proof.
  intros Ht Hf Hown Hkeys. revert v locals.
  induction Ht as [|a args (vala & Hfa & Hta) Ht IH]; intros v locals Hex.
  - simpl in Hex. injection Hex as <- <-. split; [done|].
    intros _ [Hin|Hv]; [by inv Hin|done].
  - rewrite (exec_args_cons c a vala) in Hex by done.
    destruct (arg_effect a vala v locals) as [v1 locals1| |] eqn:Heff;
      try discriminate.
    destruct (IH (fun a' Ha' => Hkeys a' (list_elem_of_further _ _ _ Ha'))
                v1 locals1 Hex) as [IH1 IH2].
    destruct (decide (a = arg)) as [->|Hne].
    + rewrite Hf in Hfa. injection Hfa as <-.
      rewrite Hown in Heff. injection Heff as <- <-.
      destruct set.
      * split; [done|]. intros _ _. apply IH2; [done|].
        right. apply lookup_insert_eq.
      * split; [auto|done].
    + assert (Hk : v1 !! qn arg = v !! qn arg).
      { apply (arg_effect_other_key a vala _ _ _ _ _ Heff).
        apply Hkeys; [by left|done]. }
      split.
      * intros Hb. by rewrite IH1, Hk.
      * intros Hb [Hin|Hv]; apply IH2; try done.
        -- apply elem_of_cons in Hin as [->|Hin]; [done|by left].
        -- right. by rewrite Hk.
Qed.

(** When the loop returns, it returns [nil] for the mapping. *)
Lemma exec_args_returned (c : Call) (args : list Argument.t)
    (v : url_Values) (locals : gmap string string)
    (r : option url_Values) (err : option string) :
  Forall (arg_typed c) args ->
  exec_stmts c (concat (map values_arg_stmts args)) v locals
  = Returned r err ->
  r = None /\ is_Some err.
Proof.
  intros Ht. revert v locals.
  induction Ht as [|a args (vala & Hfa & Hta) Ht IH]; intros v locals Hex.
  - discriminate.
  - rewrite (exec_args_cons c a vala) in Hex by done.
    destruct (arg_effect_cases a vala v locals)
      as [(v1 & locals1 & Heff)|(e & Heff)]; rewrite Heff in Hex.
    + by apply (IH v1 locals1).
    + injection Hex as <- <-. eauto.
Qed.

Lemma Values_key (endpoint : Endpoint.t) (c : Call) (arg : Argument.t)
    (val : Value) (set : bool) (s : string) (v : url_Values) :
  call_of endpoint c ->
  arg ∈ Endpoint.Args endpoint ->
  fields c !! Argument.Name arg = Some val ->
  (forall v0 l0,
     arg_effect arg val v0 l0
     = Next (if set then <[qn arg := [s]]> v0 else v0) l0) ->
  (forall a, a ∈ Endpoint.Args endpoint -> a <> arg -> qn a <> qn arg) ->
  (Endpoint.SkipToken endpoint = false -> qn arg <> "token") ->
  Values endpoint c = Returned (Some v) None ->
  v !! qn arg = if set then Some [s] else None.
Proof.
  intros Hc Hin Hf Hown Hkeys Htok Hv.
  rewrite Values_unfold in Hv.
  destruct (exec_stmts c _ _ _) as [v1 locals1|r e|] eqn:Hex;
    [|apply exec_args_returned in Hex as [-> _]; [discriminate|done]
     |discriminate].
  injection Hv as ->.
  destruct (exec_args_key c _ arg val set s _ _ _ _ Hc Hf Hown Hkeys Hex)
    as [Hfalse Htrue].
  assert (H0 : (if Endpoint.SkipToken endpoint then ∅
                else {[ "token" := [token c] ]} : url_Values) !! qn arg
               = None).
  { destruct (Endpoint.SkipToken endpoint); [apply lookup_empty|].
    apply lookup_singleton_ne. intros Hk. by apply Htok. }
  destruct set; [by apply Htrue; auto|]. by rewrite Hfalse, H0.
Qed.



End ValuesFacts.





(** The text printed for the three simple kinds of optional argument. *)
Example values_arg_int_text :
  values_arg (example_arg "count" "int" false)
  = cat [ nl;
          nl; "if c.count > 0 {";
          nl; "v.Set("; dq; "count"; dq; ",strconv.Itoa(c.count))";
          nl; "}" ].
Proof. reflexivity. Qed.

Example values_arg_bool_text :
  values_arg (example_arg "as_user" "bool" false)
  = cat [ nl;
          nl; "if c.as_user {";
          nl; "v.Set("; dq; "as_user"; dq; ","; dq; "true"; dq; ")";
          nl; "}" ].
Proof. reflexivity. Qed.

Example values_arg_required_text :
  values_arg (example_arg "channel" "string" true)
  = cat [ nl;
          nl; "if len(c.channel) <= 0 {";
          nl; "return nil, errors.New(`missing required parameter channel`)";
          nl; "}";
          nl; "v.Set("; dq; "channel"; dq; ",c.channel)" ].
Proof. reflexivity. Qed.

(** ** The [Do] routine *)

(** C9.  When [Values] gives a mapping and the transport decodes an
    envelope whose success flag is false, [Do] returns no payload and an
    error whose message is the error description of the envelope.  The
    endpoint is arbitrary, so this holds with and without a declared return
    type. *)
Theorem do_remote_failure `{Objects} {P : Type}
    (postForm : string -> url_Values -> Envelope P + string)
    (endpoint : Endpoint.t) (c : Call) (v : url_Values) (res : Envelope P) :
  Values endpoint c = Returned (Some v) None ->
  postForm (Endpoint.Name endpoint) v = inl res ->
  OK res = false ->
  Do postForm endpoint c = DoReturned None (Some (Error res)).
Proof.
  intros Hv Hpost Hok. unfold Do, do_stmts. simpl.
  rewrite Hv. simpl. rewrite Hpost. simpl. by rewrite Hok.
Qed.

Lemma do_remote_failure_witness :
  OK {| OK := false; Error := "not_authed"; Payload := Some "p" |} = false /\
  Do (example_postForm
        {| OK := false; Error := "not_authed"; Payload := Some "p" |})
     example_endpoint (example_call "C1" true 3 [])
  = DoReturned None (Some "not_authed") /\
  Do (example_postForm
        {| OK := false; Error := "not_authed"; Payload := Some "p" |})
     (example_int_endpoint false) (example_call "C1" true 3 [])
  = DoReturned None (Some "not_authed").
Proof.
  split; [reflexivity|]. split.
  - apply (do_remote_failure (H:=example_objects)
             (example_postForm
                {| OK := false; Error := "not_authed"; Payload := Some "p" |})
             example_endpoint (example_call "C1" true 3 [])
             {[ "token" := ["T"]; "as_user" := ["true"]; "channel" := ["C1"];
                "count" := ["3"] ]}
             {| OK := false; Error := "not_authed"; Payload := Some "p" |});
      [vm_compute; reflexivity|reflexivity|reflexivity].
  - apply (do_remote_failure (H:=example_objects)
             (example_postForm
                {| OK := false; Error := "not_authed"; Payload := Some "p" |})
             (example_int_endpoint false) (example_call "C1" true 3 [])
             {[ "token" := ["T"]; "count" := ["3"] ]}
             {| OK := false; Error := "not_authed"; Payload := Some "p" |});
      [vm_compute; reflexivity|reflexivity|reflexivity].
Defined.

(** ** The setters *)

Lemma singularName_es (arg : Argument.t) (p : string) :
  Argument.Name arg = p +:+ "es" -> singularName arg = p.
Proof.
  intros Hn. unfold singularName.
  by rewrite Hn, HasSuffix_append, TrimSuffix_append.
Qed.

Lemma singularName_s (arg : Argument.t) (p : string) :
  strings.HasSuffix (Argument.Name arg) "es" = false ->
  Argument.Name arg = p +:+ "s" -> singularName arg = p.
Proof.
  intros Hes Hn. unfold singularName.
  by rewrite Hes, Hn, TrimSuffix_append.
Qed.

Lemma singularName_other (arg : Argument.t) :
  strings.HasSuffix (Argument.Name arg) "s" = false ->
  singularName arg = Argument.Name arg.
Proof.
  intros Hs. unfold singularName.
  destruct (strings.HasSuffix (Argument.Name arg) "es") eqn:Hes.
  - apply HasSuffix_inv in Hes as [p Hp].
    replace (p +:+ "es") with ((p +:+ "e") +:+ "s") in Hp
      by (by rewrite append_assoc).
    by rewrite Hp, HasSuffix_append in Hs.
  - by apply TrimSuffix_absent.
Qed.

(** C6.  For an optional argument whose type ends in [List] the generator
    prints two setters and no more.  The first is named [Set] followed by
    the camel-cased argument name, takes the whole list and assigns it to
    the field.  The second is named by the camel-cased singular of the
    argument name (the name without a final ["es"], else without a final
    ["s"], else the name itself), takes a pointer to the element type (the
    list type without [List]) and appends the element to the field.  Each
    returns the call. *)
Theorem list_setters `{Objects} (endpoint : Endpoint.t) (arg : Argument.t) :
  Argument.Required arg = false ->
  strings.HasSuffix (Argument.Type_ arg) "List" = true ->
  exists replace append : Go.method,
    setter_methods endpoint arg = [replace; append] /\
    setters endpoint arg
    = Go.render_method replace +:+ Go.render_method append /\
    (* the replace setter *)
    Go.name replace = "Set" +:+ camelit (Argument.Name arg) /\
    Go.ptype replace = Argument.Type_ arg /\
    Go.body replace = Go.Assign (Argument.Name arg) (Go.param replace) /\
    (forall (c : Call) (x : Value),
       run_setter (Go.body replace) c (inl x)
       = Some (set_field (Argument.Name arg) x c)) /\
    (* the append setter *)
    Go.name append = camelit (singularName arg) /\
    (forall p, Argument.Name arg = p +:+ "es" -> singularName arg = p) /\
    (strings.HasSuffix (Argument.Name arg) "es" = false ->
     forall p, Argument.Name arg = p +:+ "s" -> singularName arg = p) /\
    (strings.HasSuffix (Argument.Name arg) "s" = false ->
     singularName arg = Argument.Name arg) /\
    (forall X, Argument.Type_ arg = X +:+ "List" ->
               Go.ptype append = "*" +:+ X) /\
    Go.body append = Go.Append (Argument.Name arg) (Go.param append) /\
    (forall (c : Call) (l : list Elem) (x : Elem),
       fields c !! Argument.Name arg = Some (VList l) ->
       run_setter (Go.body append) c (inr x)
       = Some (set_field (Argument.Name arg) (VList (l ++ [x])) c)).
Proof.
  intros Hopt Hlist.
  pose proof (render_setters endpoint arg) as Hr.
  unfold setter_methods in *. rewrite Hopt, Hlist in *.
  eexists _, _. split; [reflexivity|].
  split; [rewrite <- Hr; cbn [map]; by rewrite cat_pair|].
  simpl. repeat split; try done.
  - apply singularName_es.
  - intros Hes p. by apply singularName_s.
  - apply singularName_other.
  - intros X HX. unfold singularType. by rewrite HX, TrimSuffix_append.
  - intros c l x Hf. by rewrite Hf.
Qed.

Lemma list_setters_witness :
  strings.HasSuffix "objects.UserList" "List" = true /\
  exists replace append : Go.method,
    setter_methods example_endpoint
      (example_arg "users" "objects.UserList" false)
    = [replace; append] /\
    Go.name replace = "SetUsers" /\
    Go.name append = "User" /\
    Go.ptype append = "*objects.User" /\
    run_setter (Go.body append) (example_call "C1" true 3 ["U1"])
      (inr "U2" : @Value example_objects + string)
    = Some (set_field "users" (@VList example_objects ["U1"; "U2"])
              (example_call "C1" true 3 ["U1"])).
Proof.
  split; [reflexivity|].
  destruct (list_setters (H:=example_objects) example_endpoint
              (example_arg "users" "objects.UserList" false)
              eq_refl eq_refl)
    as (replace & append & Hm & _ & Hn1 & _ & _ & _ & Hn2 & _ & _ & _ & Hty
        & Hb & Hrun).
  exists replace, append. split; [exact Hm|]. split; [exact Hn1|].
  split; [exact Hn2|]. split; [exact (Hty "objects.User" eq_refl)|].
  exact (Hrun (example_call "C1" true 3 ["U1"]) ["U1"] "U2" eq_refl).
Defined.

(** ** Determinism of a run *)

Lemma foldl_write_file (buckets : list (string * list Endpoint.t))
    (fs : gmap string string) :
  NoDup (buckets.*1) ->
  foldl write_file fs buckets
  = (generateServiceDetailsFile <$> (list_to_map buckets
                                     : gmap string (list Endpoint.t)))
    ∪ fs.
Proof.
  revert fs. induction buckets as [|[k b] buckets IH]; intros fs Hnd; simpl.
  - by rewrite fmap_empty, (left_id_L ∅ (∪)).
  - apply NoDup_cons in Hnd as [Hk Hnd].
    rewrite IH by done. unfold write_file. simpl.
    rewrite fmap_insert, <- insert_union_l, <- insert_union_r; [done|].
    rewrite lookup_fmap.
    apply (not_elem_of_list_to_map (M:=gmap string)) in Hk.
    simpl in Hk. by rewrite Hk.
Qed.

(** The files of a run do not depend on the two [range] orders. *)
Lemma emit_enumeration (groups : gset string)
    (group : gmap string (list Endpoint.t))
    (keys : list string) (buckets : list (string * list Endpoint.t)) :
  keys ≡ₚ elements groups ->
  buckets ≡ₚ map_to_list group ->
  emit keys buckets
  = (generateServiceDetailsFile <$> group)
    ∪ {[ "services.go" := generateServicesFile (elements groups) ]}.
Proof.
  intros Hk Hb. unfold emit.
  assert (Hnd : NoDup (buckets.*1))
    by (rewrite Hb; apply NoDup_fst_map_to_list).
  rewrite foldl_write_file by done.
  rewrite (list_to_map_proper buckets (map_to_list group)) by done.
  rewrite list_to_map_to_list.
  unfold generateServicesFile. by rewrite (Strings_unique _ _ Hk).
Qed.

Lemma main_run_deterministic (endpoints : list Endpoint.t)
    (out out' : option (gmap string string)) :
  main_run endpoints out -> main_run endpoints out' -> out = out'.
Proof.
  intros [Hp|gs g keys buckets Hg Hk Hb] [Hp'|gs' g' keys' buckets' Hg' Hk' Hb'];
    try congruence.
  rewrite Hg in Hg'. injection Hg' as <- <-.
  by rewrite (emit_enumeration gs g keys buckets),
       (emit_enumeration gs g keys' buckets').
Qed.

Lemma main_run_total (endpoints : list Endpoint.t) :
  exists out, main_run endpoints out.
Proof.
  destruct (grouping endpoints) as [[gs g]|] eqn:Hg.
  - eexists. by eapply (main_done _ gs g (elements gs) (map_to_list g)).
  - exists None. by constructor.
Qed.

Lemma print_order_Sorted (bucket : list Endpoint.t) :
  Sorted endpoint_le (print_order bucket)
  /\ Forall (fun e => Sorted argument_le (Endpoint.Args e))
       (print_order bucket).
Proof.
  unfold print_order. split.
  - pose proof (Slice_Sorted Endpoint.Name bucket) as Hs.
    change (Sorted endpoint_le (sort.Slice endpoint_less bucket)) in Hs.
    induction Hs as [|e l Hl IH Hhd]; simpl; constructor; [done|].
    destruct Hhd; simpl; constructor. done.
  - apply Forall_forall. intros e He.
    apply list_elem_of_fmap in He as (e0 & -> & _). apply sort_args_Sorted.
Qed.

(** ** Independence of the catalog order *)

Lemma prepare_set_Args (args : list Argument.t) (e : Endpoint.t) :
  prepare (Endpoint.set_Args args e) = Endpoint.set_Args args <$> prepare e.
Proof.
  unfold prepare. destruct e as [f m g n j a r t]; simpl.
  destruct (slice_to n (strings.LastIndexByte n ".")) as [ns|]; simpl; [|done].
  destruct (String.length g =? 0)%nat; simpl;
    by destruct (slice_from n (strings.LastIndexByte n "." + 1)).
Qed.

Lemma prepare_fields (e p : Endpoint.t) :
  prepare e = Some p ->
  Endpoint.Name p = Endpoint.Name e /\ Endpoint.Args p = Endpoint.Args e.
Proof.
  intros Hp.
  destruct (contains "." (Endpoint.Name e)) eqn:Hc;
    [|by rewrite prepare_undotted in Hp].
  destruct (prepare_dotted e Hc) as (ns & mn & _ & _ & _ & Hp').
  rewrite Hp' in Hp. by injection Hp as <-.
Qed.

Lemma same_endpoint_inv (e e' : Endpoint.t) :
  same_endpoint e e' <->
  exists args, e' = Endpoint.set_Args args e /\ Endpoint.Args e ≡ₚ args.
Proof.
  split.
  - intros [He' Hargs]. by exists (Endpoint.Args e').
  - intros (args & -> & Hargs). by split.
Qed.

Lemma same_endpoint_prepare (e e' : Endpoint.t) :
  same_endpoint e e' ->
  (is_Some (prepare e) <-> is_Some (prepare e'))
  /\ (is_Some (prepare e) ->
      same_endpoint (prepare_total e) (prepare_total e')).
Proof.
  intros (args & -> & Hargs)%same_endpoint_inv. unfold prepare_total.
  rewrite prepare_set_Args.
  destruct (prepare e) as [p|] eqn:Hp; simpl.
  - split; [split; eauto|]. intros _.
    destruct (prepare_fields e p Hp) as [_ Ha].
    apply same_endpoint_inv. exists args. by rewrite Ha.
  - split; [|by intros [? ?]]. split; by intros [? ?].
Qed.

Lemma mapM_prepare (endpoints es : list Endpoint.t) :
  mapM prepare endpoints = Some es
  <-> Forall (fun e => is_Some (prepare e)) endpoints
      /\ es = prepare_total <$> endpoints.
Proof.
  rewrite mapM_Some. split.
  - induction 1 as [|e p l k Hp _ [IH1 IH2]]; [by split|].
    split; [constructor; eauto|].
    rewrite fmap_cons. unfold prepare_total at 1. rewrite Hp. simpl.
    by f_equal.
  - intros [Hall ->]. induction Hall as [|e l [p Hp] _ IH];
      rewrite ?fmap_cons; constructor; [|done].
    unfold prepare_total. by rewrite Hp.
Qed.

Lemma prepare_total_fields (e : Endpoint.t) :
  Endpoint.Name (prepare_total e) = Endpoint.Name e
  /\ Endpoint.Args (prepare_total e) = Endpoint.Args e.
Proof.
  unfold prepare_total. destruct (prepare e) as [p|] eqn:Hp; simpl; [|done].
  by apply prepare_fields.
Qed.

Section SortRelated.

Context {A : Type} (key : A -> string) (R : A -> A -> Prop).
Hypothesis R_key : forall x y, R x y -> key x = key y.

Lemma insert_Forall2 (x x' : A) (l l' : list A) :
  R x x' -> Forall2 R l l' ->
  Forall2 R (sort.insert (less_by key) x l) (sort.insert (less_by key) x' l').
Proof.
  intros Hx. induction 1 as [|y y' l l' Hy Hl IH]; simpl.
  - by repeat constructor.
  - unfold less_by at 1 3. rewrite (R_key x x' Hx), (R_key y y' Hy).
    destruct (strings.less (key x') (key y')); by repeat constructor.
Qed.

Lemma Slice_Forall2 (l l' : list A) :
  Forall2 R l l' ->
  Forall2 R (sort.Slice (less_by key) l) (sort.Slice (less_by key) l').
Proof.
  induction 1 as [|x x' l l' Hx Hl IH]; simpl; [constructor|].
  by apply insert_Forall2.
Qed.

End SortRelated.

Lemma same_endpoint_Name (e e' : Endpoint.t) :
  same_endpoint e e' -> Endpoint.Name e = Endpoint.Name e'.
Proof. by intros (args & -> & _)%same_endpoint_inv. Qed.

Lemma same_endpoint_file (e e' : Endpoint.t) :
  same_endpoint e e' -> Endpoint.file e = Endpoint.file e'.
Proof. by intros (args & -> & _)%same_endpoint_inv. Qed.

Lemma same_endpoint_Group (e e' : Endpoint.t) :
  same_endpoint e e' -> Endpoint.Group e = Endpoint.Group e'.
Proof. by intros (args & -> & _)%same_endpoint_inv. Qed.

Lemma same_endpoint_sort_args (e e' : Endpoint.t) :
  NoDup (Argument.Name <$> Endpoint.Args e) ->
  same_endpoint e e' -> sort_args e = sort_args e'.
Proof.
  intros Hnd (args & -> & Hargs)%same_endpoint_inv. unfold sort_args.
  simpl.
  by rewrite (Slice_key_unique Argument.Name _ _ Hnd Hargs :
                sort.Slice argument_less (Endpoint.Args e)
                = sort.Slice argument_less args).
Qed.

(** Two buckets with the same endpoints, in any order and with the
    arguments of each in any order, print the same. *)
Lemma print_order_same (b m b' : list Endpoint.t) :
  NoDup (Endpoint.Name <$> b) ->
  Forall (fun e => NoDup (Argument.Name <$> Endpoint.Args e)) b ->
  b ≡ₚ m -> Forall2 same_endpoint m b' ->
  print_order b = print_order b'.
Proof.
  intros Hnd Hargs Hp Hsame. unfold print_order.
  rewrite (Slice_key_unique Endpoint.Name _ _ Hnd Hp :
             sort.Slice endpoint_less b = sort.Slice endpoint_less m).
  assert (Hall : Forall (fun e => NoDup (Argument.Name <$> Endpoint.Args e))
                   (sort.Slice endpoint_less m)).
  { pose proof (Slice_Permutation Endpoint.Name m) as Hm.
    change (sort.Slice endpoint_less m ≡ₚ m) in Hm.
    by rewrite Hm, <- Hp. }
  pose proof (Slice_Forall2 Endpoint.Name same_endpoint same_endpoint_Name
                _ _ Hsame) as Hs.
  change (Forall2 same_endpoint (sort.Slice endpoint_less m)
            (sort.Slice endpoint_less b')) in Hs.
  induction Hs as [|e e' l l' He Hl IH]; simpl; [done|].
  apply Forall_cons in Hall as [Hnde Hall].
  f_equal; [by apply same_endpoint_sort_args|by apply IH].
Qed.

Lemma generateServiceDetailsFile_print_order (bucket : list Endpoint.t) :
  generateServiceDetailsFile bucket
  = cat [ file_header;
          cat (map call_type (print_order bucket));
          cat (map call_methods (print_order bucket)) ].
Proof. reflexivity. Qed.

Lemma bucket_lookup_filter (es : list Endpoint.t) (k : string) :
  foldl add_bucket ∅ es !! k
  = if decide (filter (fun e => Endpoint.file e = k) es = []) then None
    else Some (filter (fun e => Endpoint.file e = k) es).
Proof.
  pose proof (bucket_lookup es ∅ k) as Hl.
  pose proof (bucket_is_Some es ∅ k) as Hs.
  rewrite lookup_empty in Hl, Hs. simpl in Hl.
  destruct (foldl add_bucket ∅ es !! k) as [b|]; simpl in Hl.
  - destruct Hs as [[Hs|(e & He & Hk)] _]; [eauto|by destruct Hs|].
    rewrite decide_False; [by rewrite Hl|].
    intros Hnil. by apply (filter_nil_not_elem_of _ _ e Hnil).
  - rewrite decide_True; [done|].
    destruct (filter (fun e => Endpoint.file e = k) es) as [|e l] eqn:Hf;
      [done|].
    assert (He : e ∈ filter (fun e => Endpoint.file e = k) es)
      by (rewrite Hf; left).
    apply list_elem_of_filter in He as [Hk He].
    destruct Hs as [_ Hs]. destruct Hs as [? Hs]; [eauto|discriminate].
Qed.

Lemma Forall2_fmap_related {A} (P : A -> Prop) (R R' : A -> A -> Prop)
    (f : A -> A) (l l' : list A) :
  (forall x y, P x -> R x y -> R' (f x) (f y)) ->
  Forall P l -> Forall2 R l l' -> Forall2 R' (f <$> l) (f <$> l').
Proof.
  intros Hf Hall HR. induction HR as [|x y l l' Hxy _ IH]; [constructor|].
  apply Forall_cons in Hall as [Hx Hall].
  rewrite !fmap_cons. constructor; auto.
Qed.

Lemma same_catalog_prepared (endpoints endpoints' : list Endpoint.t) :
  same_catalog endpoints endpoints' ->
  Forall (fun e => is_Some (prepare e)) endpoints ->
  Forall (fun e => is_Some (prepare e)) endpoints'
  /\ same_catalog (prepare_total <$> endpoints) (prepare_total <$> endpoints').
Proof.
  intros (mid & Hp & Hsame) Hall. rewrite Hp in Hall. split.
  - clear Hp. induction Hsame as [|e e' l l' He _ IH]; [constructor|].
    apply Forall_cons in Hall as [Hx Hall]. constructor; [|auto].
    by apply (same_endpoint_prepare e e' He).
  - exists (prepare_total <$> mid). split; [by rewrite Hp|].
    apply (Forall2_fmap_related (fun e => is_Some (prepare e)) same_endpoint);
      [|done..].
    intros x y Hx Hxy. by apply (same_endpoint_prepare x y Hxy).
Qed.

Lemma same_catalog_panic (endpoints endpoints' : list Endpoint.t) :
  same_catalog endpoints endpoints' ->
  grouping endpoints = None -> grouping endpoints' = None.
Proof.
  intros (mid & Hp & Hsame). rewrite !grouping_mapM.
  destruct (mapM prepare endpoints) as [es|] eqn:Hm; [done|]. intros _.
  destruct (mapM prepare endpoints') as [es'|] eqn:Hm'; [|done]. exfalso.
  apply mapM_prepare in Hm' as [Hall' _].
  assert (Hall : Forall (fun e => is_Some (prepare e)) endpoints).
  { rewrite Hp. clear Hp.
    induction Hsame as [|e e' l l' He _ IH]; [constructor|].
    apply Forall_cons in Hall' as [Hx Hall']. constructor; [|auto].
    by apply (same_endpoint_prepare e e' He). }
  assert (mapM prepare endpoints = Some (prepare_total <$> endpoints))
    as Hm2 by (by apply mapM_prepare).
  congruence.
Qed.

Lemma same_catalog_grouping (endpoints endpoints' : list Endpoint.t)
    (groups : gset string) (group : gmap string (list Endpoint.t)) :
  unique_names endpoints ->
  same_catalog endpoints endpoints' ->
  grouping endpoints = Some (groups, group) ->
  exists group',
    grouping endpoints' = Some (groups, group')
    /\ generateServiceDetailsFile <$> group'
       = generateServiceDetailsFile <$> group.
Proof.
  intros [Hnames Hargs] Hsame. rewrite !grouping_mapM.
  destruct (mapM prepare endpoints) as [es|] eqn:Hm; [|done].
  simpl. intros [= <- <-].
  apply mapM_prepare in Hm as [Hall ->].
  destruct (same_catalog_prepared _ _ Hsame Hall)
    as [Hall' (mes & Hp & Hs)].
  rewrite (proj2 (mapM_prepare endpoints' _) (conj Hall' eq_refl)). simpl.
  exists (foldl add_bucket ∅ (prepare_total <$> endpoints')). split.
  - f_equal. f_equal. apply list_to_set_perm_L.
    rewrite Hp. clear Hp.
    induction Hs as [|e e' l l' He _ IH]; [done|].
    rewrite !fmap_cons, (same_endpoint_Group e e' He).
    by apply Permutation_skip.
  - set (es := prepare_total <$> endpoints) in *.
    set (es' := prepare_total <$> endpoints') in *.
    assert (Hnames' : NoDup (Endpoint.Name <$> es)).
    { unfold es. rewrite <- list_fmap_compose.
      erewrite list_fmap_ext; [exact Hnames|].
      intros i e _. apply prepare_total_fields. }
    assert (Hargs' : Forall
              (fun e => NoDup (Argument.Name <$> Endpoint.Args e)) es).
    { unfold es. apply Forall_fmap. eapply Forall_impl; [exact Hargs|].
      intros e He. simpl.
      by rewrite (proj2 (prepare_total_fields e)). }
    apply map_eq. intros k. rewrite !lookup_fmap, !bucket_lookup_filter.
    set (F := filter (fun e => Endpoint.file e = k)).
    assert (HpF : F es ≡ₚ F mes) by (unfold F; by rewrite Hp).
    assert (HsF : Forall2 same_endpoint (F mes) (F es')).
    { unfold F. apply Forall2_filter; [|done].
      intros x y Hxy. by rewrite (same_endpoint_file x y Hxy). }
    assert (Hlen : length (F es) = length (F es'))
      by (by rewrite HpF, (Forall2_length _ _ _ HsF)).
    destruct (decide (F es' = [])) as [He'|He'];
      destruct (decide (F es = [])) as [He|He]; simpl.
    + done.
    + rewrite He' in Hlen. by destruct (F es).
    + rewrite He in Hlen. by destruct (F es').
    + f_equal. rewrite !generateServiceDetailsFile_print_order.
      rewrite (print_order_same (F es) (F mes) (F es')); try done.
      * eapply sublist_NoDup; [exact Hnames'|].
        unfold F. apply fmap_sublist, sublist_filter.
      * apply Forall_forall. intros e [_ He0]%list_elem_of_filter.
        by apply (proj1 (Forall_forall _ _) Hargs').
Qed.



(** * Further properties of the generator *)

(** ** The name transform *)

Lemma ToUpper_separator (r : ascii) :
  is_separator (unicode.ToUpper r) = is_separator r.
Proof. by destruct r as [[] [] [] [] [] [] [] []]. Qed.

Lemma ToUpper_dot (r : ascii) :
  Ascii.eqb (unicode.ToUpper r) "." = Ascii.eqb r ".".
Proof. by destruct r as [[] [] [] [] [] [] [] []]. Qed.

Lemma ToUpper_idempotent (r : ascii) :
  unicode.ToUpper (unicode.ToUpper r) = unicode.ToUpper r.
Proof. by destruct r as [[] [] [] [] [] [] [] []]. Qed.

Lemma has_separator_cons (r : ascii) (s : string) :
  has_separator (String r s) = is_separator r || has_separator s.
Proof.
  unfold has_separator, is_separator. simpl.
  destruct (Ascii.eqb r "."), (Ascii.eqb r "_"), (contains "." s),
    (contains "_" s); reflexivity.
Qed.

(** The loop only looks at [i == 0 || upnext]. *)
Lemma camelit_go_flag (first upnext first' upnext' : bool) (s : string) :
  first || upnext = first' || upnext' ->
  camelit_go first upnext s = camelit_go first' upnext' s.
Proof. intros Hf. destruct s as [|r s]; simpl; [done|]. by rewrite Hf. Qed.

Lemma camelit_go_isolated (first upnext : bool) (s : string) :
  isolated (first || upnext) s = true ->
  has_separator (camelit_go first upnext s) = false.
Proof.
  revert first upnext. induction s as [|r s IH]; intros first upnext; simpl.
  - done.
  - fold (is_separator r).
    destruct (is_separator r) eqn:Hr, (first || upnext) eqn:Hf; simpl;
      try done; intros Hs.
    + by apply (IH false true).
    + rewrite has_separator_cons, ToUpper_separator, Hr. simpl.
      by apply (IH false false).
    + rewrite has_separator_cons, Hr. simpl. by apply (IH false false).
Qed.

(** X1.  When every separator of the input stands alone (none is the first
    byte, none follows another separator), the output of [camelit] has no
    ['.'] and no ['_']. *)
Theorem camelit_isolated_no_separator (s : string) :
  isolated true s = true -> has_separator (camelit s) = false.
Proof. intros Hs. by apply camelit_go_isolated. Qed.

Lemma camelit_isolated_no_separator_witness :
  isolated true "users.profile_get" = true /\
  has_separator (camelit "users.profile_get") = false.
Proof.
  split; [reflexivity|].
  apply (camelit_isolated_no_separator "users.profile_get"). reflexivity.
Defined.

Lemma camelit_plain (s : string) :
  has_separator s = false ->
  camelit s = match s with
              | EmptyString => EmptyString
              | String r s' => String (unicode.ToUpper r) s'
              end.
Proof.
  destruct s as [|r s]; [done|]. rewrite has_separator_cons.
  intros [_ Hs]%orb_false_iff. unfold camelit. simpl.
  by rewrite camelit_go_plain.
Qed.

(** X2.  On an input whose separators stand alone, [camelit] applied twice
    gives what it gives applied once. *)
Theorem camelit_idempotent (s : string) :
  isolated true s = true -> camelit (camelit s) = camelit s.
Proof.
  intros Hs.
  assert (Hout : has_separator (camelit s) = false)
    by (by apply camelit_go_isolated).
  rewrite (camelit_plain (camelit s) Hout).
  destruct s as [|r s]; [done|].
  unfold camelit. simpl. by rewrite ToUpper_idempotent.
Qed.

Lemma camelit_idempotent_witness :
  isolated true "chat.postMessage" = true /\
  camelit (camelit "chat.postMessage") = camelit "chat.postMessage".
Proof.
  split; [reflexivity|].
  apply (camelit_idempotent "chat.postMessage"). reflexivity.
Defined.

Lemma camelit_go_app_dot (ns mn : string) (first upnext : bool) :
  isolated (first || upnext) (ns +:+ ".") = true ->
  camelit_go first upnext (ns +:+ String "." mn)
  = camelit_go first upnext ns +:+ camelit mn.
Proof.
  revert first upnext. induction ns as [|r ns IH]; intros first upnext; simpl.
  - destruct (first || upnext); [done|]. intros _. simpl.
    by apply camelit_go_flag.
  - fold (is_separator r).
    destruct (is_separator r) eqn:Hr, (first || upnext) eqn:Hf; simpl;
      try done; intros Hs.
    + by apply (IH false true).
    + f_equal. by apply (IH false false).
    + f_equal. by apply (IH false false).
Qed.

Lemma camelit_go_no_dot (first upnext : bool) (s : string) :
  contains "." s = false -> contains "." (camelit_go first upnext s) = false.
Proof.
  revert first upnext. induction s as [|r s IH]; intros first upnext; simpl.
  - done.
  - intros [Hr Hs]%orb_false_iff. rewrite Hr. simpl.
    destruct (first || upnext); simpl.
    + rewrite ToUpper_dot, Hr. simpl. by apply IH.
    + destruct (Ascii.eqb r "_"); simpl; [by apply IH|].
      rewrite Hr. simpl. by apply IH.
Qed.

Lemma camelit_empty (s : string) : camelit s = "" <-> s = "".
Proof.
  split; [|by intros ->]. destruct s as [|r s]; [done|].
  unfold camelit. simpl. discriminate.
Qed.

(** ** The loop body of [_main] *)

Lemma LastIndexByte_go_split (pre post : string) (c : ascii) (i last : Z) :
  contains c post = false ->
  strings.LastIndexByte_go (pre +:+ String c post) c i last
  = (i + Z.of_nat (String.length pre))%Z.
Proof.
  intros Hpost. revert i last.
  induction pre as [|x pre IH]; intros i last; simpl.
  - rewrite Ascii.eqb_refl, LastIndexByte_go_absent by done. lia.
  - rewrite IH. lia.
Qed.

Lemma prepare_split (e : Endpoint.t) (ns mn : string) :
  Endpoint.Name e = ns +:+ String "." mn ->
  contains "." mn = false ->
  strings.LastIndexByte (Endpoint.Name e) "." = Z.of_nat (String.length ns)
  /\ prepare e = Some (prepared ns mn e).
Proof.
  intros Hn Hmn.
  assert (Hi : strings.LastIndexByte (Endpoint.Name e) "."
               = Z.of_nat (String.length ns)).
  { unfold strings.LastIndexByte. rewrite Hn, LastIndexByte_go_split by done.
    lia. }
  split; [done|].
  unfold prepare, prepared. rewrite Hi. clear Hi.
  destruct e as [f m g n j a r t]; simpl in *; subst n.
  rewrite slice_to_append; simpl.
  destruct (String.length g =? 0)%nat; simpl;
    by rewrite slice_from_append.
Qed.

Lemma prepare_inv (e p : Endpoint.t) :
  prepare e = Some p ->
  exists ns mn,
    Endpoint.Name e = ns +:+ String "." mn /\ contains "." mn = false /\
    strings.LastIndexByte (Endpoint.Name e) "." = Z.of_nat (String.length ns)
    /\ p = prepared ns mn e.
Proof.
  intros Hp.
  destruct (contains "." (Endpoint.Name e)) eqn:Hc;
    [|by rewrite prepare_undotted in Hp].
  destruct (prepare_dotted e Hc) as (ns & mn & Hn & Hmn & Hi & Hp').
  exists ns, mn. repeat split; try done. congruence.
Qed.

(** X3.  For an endpoint named [ns.mn] without a group of its own, where
    the separators of [ns.] stand alone, the group and the method name that
    the loop body derives make up the transform of the whole name: the
    call type of [chat.postMessage] is [ChatPostMessage] followed by
    [Call]. *)
Theorem prepare_default_type_name (e p : Endpoint.t) (ns mn : string) :
  prepare e = Some p ->
  Endpoint.Name e = ns +:+ String "." mn ->
  contains "." mn = false ->
  String.length (Endpoint.Group e) = 0 ->
  isolated true (ns +:+ ".") = true ->
  Endpoint.Group p +:+ Endpoint.methodName p = camelit (Endpoint.Name e).
Proof.
  intros Hp Hn Hmn Hg Hiso.
  destruct (prepare_split e ns mn Hn Hmn) as [_ Hp'].
  rewrite Hp' in Hp. injection Hp as <-. simpl.
  rewrite Hg, Hn. simpl. symmetry. by apply camelit_go_app_dot.
Qed.

Lemma prepare_default_type_name_witness :
  prepare (Endpoint.mk "" "" "" "users.profile.get" "" [] "" false)
  = Some (Endpoint.mk "users_profile.go" "Get" "UsersProfile"
            "users.profile.get" "" [] "" false) /\
  "UsersProfile" +:+ "Get" = camelit "users.profile.get".
Proof.
  split; [reflexivity|].
  apply (prepare_default_type_name
           (Endpoint.mk "" "" "" "users.profile.get" "" [] "" false)
           (Endpoint.mk "users_profile.go" "Get" "UsersProfile"
              "users.profile.get" "" [] "" false)
           "users.profile" "get"); reflexivity.
Defined.

(** X4.  The method name that the loop body derives never contains a
    ['.']. *)
Theorem prepare_methodName_no_dot (e p : Endpoint.t) :
  prepare e = Some p -> contains "." (Endpoint.methodName p) = false.
Proof.
  intros (ns & mn & _ & Hmn & _ & ->)%prepare_inv. simpl.
  by apply camelit_go_no_dot.
Qed.

Lemma prepare_methodName_no_dot_witness :
  prepare (Endpoint.mk "" "" "" "users.profile.get" "" [] "" false)
  = Some (Endpoint.mk "users_profile.go" "Get" "UsersProfile"
            "users.profile.get" "" [] "" false) /\
  contains "." "Get" = false.
Proof.
  split; [reflexivity|].
  apply (prepare_methodName_no_dot
           (Endpoint.mk "" "" "" "users.profile.get" "" [] "" false)
           (Endpoint.mk "users_profile.go" "Get" "UsersProfile"
              "users.profile.get" "" [] "" false)).
  reflexivity.
Defined.

Lemma Replace_go_cons (c : ascii) (s : string) :
  strings.Replace_go 0 (String c s) "." "_"
  = String (if Ascii.eqb c "." then "_"%char else c)
      (strings.Replace_go 0 s "." "_").
Proof.
  cbn [strings.Replace_go String.prefix String.length].
  destruct (ascii_dec "." c) as [<-|Hc].
  - by destruct s.
  - by rewrite (proj2 (Ascii.eqb_neq c ".")) by congruence.
Qed.

Lemma Replace_dot (s : string) :
  contains "." (strings.Replace s "." "_") = false
  /\ String.length (strings.Replace s "." "_") = String.length s.
Proof.
  unfold strings.Replace. induction s as [|c s [IH1 IH2]]; [done|].
  rewrite Replace_go_cons. cbn [contains String.length].
  rewrite IH1, IH2, orb_false_r. split; [|done].
  by destruct (Ascii.eqb c ".") eqn:Hc.
Qed.

(** X5.  The file that the loop body derives is its output unit followed
    by [.go]; the output unit has no ['.'] and is as long as the part of
    the name before the last dot. *)
Theorem prepare_output_unit (e p : Endpoint.t) :
  prepare e = Some p ->
  Endpoint.file p = output_unit p +:+ ".go" /\
  contains "." (output_unit p) = false /\
  Z.of_nat (String.length (output_unit p))
  = strings.LastIndexByte (Endpoint.Name e) ".".
Proof.
  intros (ns & mn & _ & _ & Hi & ->)%prepare_inv.
  rewrite output_unit_prepared, Hi. simpl.
  destruct (Replace_dot ns) as [H1 H2]. by rewrite H1, H2.
Qed.

Lemma prepare_output_unit_witness :
  prepare (Endpoint.mk "" "" "" "users.profile.get" "" [] "" false)
  = Some (Endpoint.mk "users_profile.go" "Get" "UsersProfile"
            "users.profile.get" "" [] "" false) /\
  "users_profile.go" = "users_profile" +:+ ".go" /\
  contains "." "users_profile" = false.
Proof.
  split; [reflexivity|].
  destruct (prepare_output_unit
              (Endpoint.mk "" "" "" "users.profile.get" "" [] "" false)
              (Endpoint.mk "users_profile.go" "Get" "UsersProfile"
                 "users.profile.get" "" [] "" false) eq_refl)
    as (H1 & H2 & _).
  split; [exact H1|exact H2].
Defined.

(** X6.  The loop body keeps a group that the catalog gives as it is.  The
    group it leaves is empty only when the catalog gives none and the name
    begins with its last dot, as in [.list]. *)
Theorem prepare_group (e p : Endpoint.t) :
  prepare e = Some p ->
  (Endpoint.Group e <> "" -> Endpoint.Group p = Endpoint.Group e) /\
  (Endpoint.Group p = ""
   <-> Endpoint.Group e = ""
       /\ strings.LastIndexByte (Endpoint.Name e) "." = 0%Z).
Proof.
  intros (ns & mn & _ & _ & Hi & ->)%prepare_inv. rewrite Hi. simpl.
  destruct (Endpoint.Group e) as [|x g] eqn:Hg; simpl.
  - split; [done|]. rewrite camelit_empty. split.
    + by intros ->.
    + intros [_ Hns]. destruct ns; [done|]. simpl in Hns. lia.
  - split; [done|]. split; [done|]. by intros [? _].
Qed.

Lemma prepare_group_witness :
  prepare (Endpoint.mk "" "" "" ".list" "" [] "" false)
  = Some (Endpoint.mk ".go" "List" "" ".list" "" [] "" false) /\
  strings.LastIndexByte ".list" "." = 0%Z.
Proof.
  split; [reflexivity|].
  apply (proj1 (proj2 (prepare_group
           (Endpoint.mk "" "" "" ".list" "" [] "" false)
           (Endpoint.mk ".go" "List" "" ".list" "" [] "" false) eq_refl))).
  reflexivity.
Defined.

(** ** The buckets and the files of a run *)

Lemma grouping_buckets_aux (endpoints : list Endpoint.t)
    (groups : gset string) (group : gmap string (list Endpoint.t))
    (k : string) :
  grouping endpoints = Some (groups, group) ->
  (forall bucket,
     group !! k = Some bucket ->
     bucket <> [] /\
     bucket = filter (fun p => Endpoint.file p = k)
                (prepare_total <$> endpoints)) /\
  (group !! k = None ->
   filter (fun p => Endpoint.file p = k) (prepare_total <$> endpoints) = []).
Proof.
  rewrite grouping_mapM.
  destruct (mapM prepare endpoints) as [es|] eqn:Hm; simpl; [|done].
  intros [= <- <-]. apply mapM_prepare in Hm as [_ ->].
  rewrite bucket_lookup_filter.
  destruct (decide (filter (fun p => Endpoint.file p = k)
                      (prepare_total <$> endpoints) = [])) as [He|He].
  - split; [done|]. by intros _.
  - split; [|done]. intros bucket [= <-]. done.
Qed.

(** X7.  After the grouping loop, the bucket of a file holds the endpoints
    of that file in the order of the catalog, and no bucket is empty: a
    file without an endpoint has no bucket. *)
Theorem grouping_buckets (endpoints : list Endpoint.t)
    (groups : gset string) (group : gmap string (list Endpoint.t))
    (k : string) :
  grouping endpoints = Some (groups, group) ->
  (forall bucket,
     group !! k = Some bucket ->
     bucket <> [] /\
     bucket = filter (fun p => Endpoint.file p = k)
                (prepare_total <$> endpoints)) /\
  (group !! k = None ->
   filter (fun p => Endpoint.file p = k) (prepare_total <$> endpoints) = []).
Proof. apply grouping_buckets_aux. Qed.

Lemma grouping_buckets_witness :
  grouping example_catalog
  = Some ({[ "Chat"; "Users" ]},
          {[ "chat.go" := [prepare_total example_chat];
             "users.go" := [prepare_total example_users] ]}) /\
  [prepare_total example_chat] <> [] /\
  [prepare_total example_chat]
  = filter (fun p => Endpoint.file p = "chat.go")
      (prepare_total <$> example_catalog).
Proof.
  assert (Hg : grouping example_catalog
    = Some ({[ "Chat"; "Users" ]},
            {[ "chat.go" := [prepare_total example_chat];
               "users.go" := [prepare_total example_users] ]}))
    by (vm_compute; reflexivity).
  split; [exact Hg|].
  apply (proj1 (grouping_buckets example_catalog _ _ "chat.go" Hg)).
  reflexivity.
Defined.

(** X8.  Grouping a catalog made of two parts gives the union of the two
    group sets, and in every bucket the endpoints of the first part
    followed by those of the second. *)
Theorem grouping_app (l1 l2 : list Endpoint.t)
    (groups1 groups2 : gset string)
    (group1 group2 : gmap string (list Endpoint.t)) :
  grouping l1 = Some (groups1, group1) ->
  grouping l2 = Some (groups2, group2) ->
  exists group,
    grouping (l1 ++ l2) = Some (groups1 ∪ groups2, group) /\
    forall k,
      default [] (group !! k)
      = default [] (group1 !! k) ++ default [] (group2 !! k).
Proof.
  rewrite !grouping_mapM.
  destruct (mapM prepare l1) as [es1|] eqn:H1; simpl; [|done].
  destruct (mapM prepare l2) as [es2|] eqn:H2; simpl; [|done].
  intros [= <- <-] [= <- <-].
  apply mapM_prepare in H1 as [Hall1 ->].
  apply mapM_prepare in H2 as [Hall2 ->].
  assert (Hm : mapM prepare (l1 ++ l2) = Some (prepare_total <$> l1 ++ l2)).
  { apply mapM_prepare. split; [by apply Forall_app|done]. }
  rewrite Hm. simpl. eexists. split.
  - f_equal. f_equal. rewrite fmap_app, fmap_app, list_to_set_app_L. done.
  - intros k. rewrite !bucket_lookup, !lookup_empty. simpl.
    by rewrite fmap_app, filter_app.
Qed.

Lemma grouping_app_witness :
  exists group,
    grouping ([example_chat] ++ [example_users])
    = Some ({[ "Chat" ]} ∪ {[ "Users" ]}, group) /\
    forall k,
      default [] (group !! k)
      = default []
          (({[ "chat.go" := [prepare_total example_chat] ]}
            : gmap string (list Endpoint.t)) !! k)
        ++ default []
             (({[ "users.go" := [prepare_total example_users] ]}
               : gmap string (list Endpoint.t)) !! k).
Proof.
  apply (grouping_app [example_chat] [example_users]);
    vm_compute; reflexivity.
Defined.

Lemma main_run_written (endpoints : list Endpoint.t)
    (fs : gmap string string) :
  main_run endpoints (Some fs) ->
  exists groups group,
    grouping endpoints = Some (groups, group) /\
    dom fs = dom group ∪ {[ "services.go" ]} /\
    (forall k bucket,
       group !! k = Some bucket ->
       fs !! k = Some (generateServiceDetailsFile bucket)) /\
    (group !! "services.go" = None ->
     fs !! "services.go" = Some (generateServicesFile (elements groups))).
Proof.
  inversion 1 as [|gs g keys buckets Hg Hk Hb Hfs].
  exists gs, g. split; [done|].
  rewrite (emit_enumeration gs g keys buckets) by done.
  split; [by rewrite dom_union_L, dom_fmap_L, dom_singleton_L|].
  split.
  - intros k bucket Hkb. apply lookup_union_Some_l.
    by rewrite lookup_fmap, Hkb.
  - intros Hnone. rewrite lookup_union_r; [apply lookup_singleton_eq|].
    by rewrite lookup_fmap, Hnone.
Qed.



Lemma details_text_not_services (bucket : list Endpoint.t)
    (keys : list string) :
  generateServiceDetailsFile bucket <> generateServicesFile keys.
Proof.
  unfold generateServiceDetailsFile, generateServicesFile, file_header, cat.
  simpl. discriminate.
Qed.



(** ** More on the [Values] routine *)

Section ValuesMore.

Context `{Objects}.

Lemma exec_args_untouched (c : Call) (args : list Argument.t) (k : string)
    (v v' : url_Values) (locals locals' : gmap string string) :
  Forall (arg_typed c) args ->
  (forall a, a ∈ args -> qn a <> k) ->
  exec_stmts c (concat (map values_arg_stmts args)) v locals
  = Next v' locals' ->
  v' !! k = v !! k.
Proof.
  intros Ht. revert v locals.
  induction Ht as [|a args (vala & Hfa & Hta) Ht IH];
    intros v locals Hk Hex.
  - simpl in Hex. by injection Hex as <- <-.
  - rewrite (exec_args_cons c a vala) in Hex by done.
    destruct (arg_effect a vala v locals) as [v1 locals1| |] eqn:Heff;
      try discriminate.
    rewrite (IH v1 locals1); [| |done].
    + apply (arg_effect_other_key a vala _ _ _ _ _ Heff). apply Hk. by left.
    + intros a' Ha'. apply Hk. by right.
Qed.

Lemma exec_args_progress (c : Call) (args : list Argument.t)
    (v : url_Values) (locals : gmap string string) :
  Forall (arg_typed c) args ->
  (exists v' locals',
     exec_stmts c (concat (map values_arg_stmts args)) v locals
     = Next v' locals')
  \/ (exists err,
        exec_stmts c (concat (map values_arg_stmts args)) v locals
        = Returned None (Some err)).
Proof.
  intros Ht. revert v locals.
  induction Ht as [|a args (vala & Hfa & Hta) Ht IH]; intros v locals.
  - left. by exists v, locals.
  - rewrite (exec_args_cons c a vala) by done.
    destruct (arg_effect_cases a vala v locals)
      as [(v1 & locals1 & ->)|(err & ->)]; [apply IH|eauto].
Qed.

Lemma exec_args_pass (c : Call) (args : list Argument.t)
    (v : url_Values) (locals : gmap string string) :
  Forall (arg_typed c) args ->
  (forall a val, a ∈ args -> fields c !! Argument.Name a = Some val ->
     (Argument.Required a = true -> is_unset val = false) /\
     (forall err, encode_field c (Argument.Name a) <> Some (inr err))) ->
  exists v' locals',
    exec_stmts c (concat (map values_arg_stmts args)) v locals
    = Next v' locals'.
Proof.
  intros Ht. revert v locals.
  induction Ht as [|a args (vala & Hfa & Hta) Ht IH]; intros v locals Hpass.
  - by exists v, locals.
  - rewrite (exec_args_cons c a vala) by done.
    destruct (Hpass a vala) as [Hp1 Hp2]; [by left|done|].
    destruct (arg_effect_passes c a vala v locals Hfa Hp1 Hp2)
      as (v1 & locals1 & ->).
    apply IH. intros a' val' Ha'. apply Hpass. by right.
Qed.

Lemma exec_args_first_stop (c : Call) (pre : list Argument.t)
    (arg : Argument.t) (post : list Argument.t) (val : Value)
    (err : string) (v : url_Values) (locals : gmap string string) :
  Forall (arg_typed c) (pre ++ arg :: post) ->
  fields c !! Argument.Name arg = Some val ->
  (forall v0 l0, arg_effect arg val v0 l0 = Returned None (Some err)) ->
  (forall b valb, b ∈ pre -> fields c !! Argument.Name b = Some valb ->
     (Argument.Required b = true -> is_unset valb = false) /\
     (forall e, encode_field c (Argument.Name b) <> Some (inr e))) ->
  exec_stmts c (concat (map values_arg_stmts (pre ++ arg :: post))) v locals
  = Returned None (Some err).
Proof.
  intros Ht Hf Hstop Hpre.
  apply Forall_app in Ht as [Ht1 Ht2].
  destruct (exec_args_pass c pre v locals Ht1 Hpre) as (v1 & l1 & Hex).
  rewrite map_app, concat_app, exec_stmts_app, Hex.
  apply Forall_cons in Ht2 as [(val' & Hf' & Hty) _].
  rewrite (exec_args_cons c arg val') by done.
  rewrite Hf in Hf'. injection Hf' as <-. by rewrite Hstop.
Qed.

Lemma exec_args_stop (c : Call) (args : list Argument.t) (arg : Argument.t)
    (val : Value) (v : url_Values) (locals : gmap string string) :
  Forall (arg_typed c) args ->
  arg ∈ args ->
  fields c !! Argument.Name arg = Some val ->
  (forall v0 l0, exists err,
     arg_effect arg val v0 l0 = Returned None (Some err)) ->
  exists err,
    exec_stmts c (concat (map values_arg_stmts args)) v locals
    = Returned None (Some err).
Proof.
  intros Ht Hin Hf Hstop. revert v locals.
  induction Ht as [|a args (vala & Hfa & Hta) Ht IH]; intros v locals.
  - by inv Hin.
  - rewrite (exec_args_cons c a vala) by done.
    destruct (arg_effect_cases a vala v locals)
      as [(v' & locals' & Heff)|(err & Heff)]; rewrite Heff; [|eauto].
    apply elem_of_cons in Hin as [->|Hin]; [|by apply IH].
    exfalso. rewrite Hfa in Hf. injection Hf as ->.
    destruct (Hstop v locals) as [err Herr]. congruence.
Qed.

(** The key of an argument whose round writes [s] there ([set]) or
    nothing, whatever it does to the local variables. *)
Lemma exec_args_written (c : Call) (args : list Argument.t)
    (arg : Argument.t) (val : Value) (set : bool) (s : string)
    (v v' : url_Values) (locals locals' : gmap string string) :
  Forall (arg_typed c) args ->
  fields c !! Argument.Name arg = Some val ->
  (forall v0 l0 v1 l1,
     arg_effect arg val v0 l0 = Next v1 l1 ->
     v1 = if set then <[qn arg := [s]]> v0 else v0) ->
  (forall a, a ∈ args -> a <> arg -> qn a <> qn arg) ->
  exec_stmts c (concat (map values_arg_stmts args)) v locals
  = Next v' locals' ->
  (set = false -> v' !! qn arg = v !! qn arg) /\
  (set = true -> arg ∈ args \/ v !! qn arg = Some [s] ->
   v' !! qn arg = Some [s]).
Proof.
  intros Ht Hf Hown Hkeys. revert v locals.
  induction Ht as [|a args (vala & Hfa & Hta) Ht IH]; intros v locals Hex.
  - simpl in Hex. injection Hex as <- <-. split; [done|].
    intros _ [Hin|Hv]; [by inv Hin|done].
  - rewrite (exec_args_cons c a vala) in Hex by done.
    destruct (arg_effect a vala v locals) as [v1 locals1| |] eqn:Heff;
      try discriminate.
    destruct (IH (fun a' Ha' => Hkeys a' (list_elem_of_further _ _ _ Ha'))
                v1 locals1 Hex) as [IH1 IH2].
    destruct (decide (a = arg)) as [->|Hne].
    + rewrite Hf in Hfa. injection Hfa as <-.
      apply Hown in Heff. subst v1.
      destruct set.
      * split; [done|]. intros _ _. apply IH2; [done|].
        right. apply lookup_insert_eq.
      * split; [auto|done].
    + assert (Hk : v1 !! qn arg = v !! qn arg).
      { apply (arg_effect_other_key a vala _ _ _ _ _ Heff).
        apply Hkeys; [by left|done]. }
      split.
      * intros Hb. by rewrite IH1, Hk.
      * intros Hb [Hin|Hv]; apply IH2; try done.
        -- apply elem_of_cons in Hin as [->|Hin]; [done|by left].
        -- right. by rewrite Hk.
Qed.

Lemma Values_written (endpoint : Endpoint.t) (c : Call) (arg : Argument.t)
    (val : Value) (set : bool) (s : string) (v : url_Values) :
  call_of endpoint c ->
  arg ∈ Endpoint.Args endpoint ->
  fields c !! Argument.Name arg = Some val ->
  (forall v0 l0 v1 l1,
     arg_effect arg val v0 l0 = Next v1 l1 ->
     v1 = if set then <[qn arg := [s]]> v0 else v0) ->
  (forall a, a ∈ Endpoint.Args endpoint -> a <> arg -> qn a <> qn arg) ->
  (Endpoint.SkipToken endpoint = false -> qn arg <> "token") ->
  Values endpoint c = Returned (Some v) None ->
  v !! qn arg = if set then Some [s] else None.
Proof.
  intros Hc Hin Hf Hown Hkeys Htok Hv.
  rewrite Values_unfold in Hv.
  destruct (exec_stmts c _ _ _) as [v1 locals1|r e|] eqn:Hex;
    [|apply exec_args_returned in Hex as [-> _]; [discriminate|done]
     |discriminate].
  injection Hv as ->.
  destruct (exec_args_written c _ arg val set s _ _ _ _ Hc Hf Hown Hkeys Hex)
    as [Hfalse Htrue].
  assert (H0 : (if Endpoint.SkipToken endpoint then ∅
                else {[ "token" := [token c] ]} : url_Values) !! qn arg
               = None).
  { destruct (Endpoint.SkipToken endpoint); [apply lookup_empty|].
    apply lookup_singleton_ne. intros Hk. by apply Htok. }
  destruct set; [by apply Htrue; auto|]. by rewrite Hfalse, H0.
Qed.

(** When [Values] gives a mapping, no argument stopped the loop. *)
Lemma Values_not_stopped (endpoint : Endpoint.t) (c : Call)
    (arg : Argument.t) (val : Value) (v : url_Values) :
  call_of endpoint c ->
  arg ∈ Endpoint.Args endpoint ->
  fields c !! Argument.Name arg = Some val ->
  Values endpoint c = Returned (Some v) None ->
  ~ (forall v0 l0, exists err,
       arg_effect arg val v0 l0 = Returned None (Some err)).
Proof.
  intros Hc Hin Hf Hv Hstop. rewrite Values_unfold in Hv.
  destruct (exec_args_stop c (Endpoint.Args endpoint) arg val
              (if Endpoint.SkipToken endpoint then ∅
               else {[ "token" := [token c] ]}) ∅ Hc Hin Hf Hstop)
    as [err Herr].
  by rewrite Herr in Hv.
Qed.

End ValuesMore.

Section ValuesProperties.

Context `{Objects}.

(** X11.  On a call-state of the endpoint, [Values] returns either a
    mapping and no error, or no mapping and an error. *)
Theorem values_outcome (endpoint : Endpoint.t) (c : Call) :
  call_of endpoint c ->
  (exists v, Values endpoint c = Returned (Some v) None)
  \/ (exists err, Values endpoint c = Returned None (Some err)).
Proof.
  intros Hc. rewrite Values_unfold.
  destruct (exec_args_progress c (Endpoint.Args endpoint)
              (if Endpoint.SkipToken endpoint then ∅
               else {[ "token" := [token c] ]}) ∅ Hc)
    as [(v & locals & ->)|(err & ->)]; eauto.
Qed.

(** X12.  When every required argument is set and no field fails to
    encode, [Values] returns a mapping. *)
Theorem values_succeeds (endpoint : Endpoint.t) (c : Call) :
  call_of endpoint c ->
  (forall a val,
     a ∈ Endpoint.Args endpoint ->
     fields c !! Argument.Name a = Some val ->
     (Argument.Required a = true -> is_unset val = false) /\
     (forall err, encode_field c (Argument.Name a) <> Some (inr err))) ->
  exists v, Values endpoint c = Returned (Some v) None.
Proof.
  intros Hc Hpass. rewrite Values_unfold.
  destruct (exec_args_pass c (Endpoint.Args endpoint)
              (if Endpoint.SkipToken endpoint then ∅
               else {[ "token" := [token c] ]}) ∅ Hc Hpass)
    as (v & locals & ->).
  eauto.
Qed.

(** X13.  The mapping that [Values] returns has no key but the token and
    the keys of the arguments: under a key that is no argument's, it has
    the token of the service when the key is [token] and the endpoint does
    not skip the token, and nothing otherwise. *)
Theorem values_other_keys (endpoint : Endpoint.t) (c : Call)
    (v : url_Values) (k : string) :
  call_of endpoint c ->
  Values endpoint c = Returned (Some v) None ->
  (forall a, a ∈ Endpoint.Args endpoint -> qn a <> k) ->
  (k = "token" -> Endpoint.SkipToken endpoint = false ->
   v !! k = Some [token c]) /\
  (k <> "token" \/ Endpoint.SkipToken endpoint = true -> v !! k = None).
Proof.
  intros Hc Hv Hk. rewrite Values_unfold in Hv.
  destruct (exec_stmts c _ _ _) as [v1 locals1|r e|] eqn:Hex;
    [|apply exec_args_returned in Hex as [-> _]; [discriminate|done]
     |discriminate].
  injection Hv as ->.
  rewrite (exec_args_untouched c _ k _ _ _ _ Hc Hk Hex).
  split.
  - intros -> ->. apply lookup_singleton_eq.
  - intros [Hne| ->]; [|apply lookup_empty].
    destruct (Endpoint.SkipToken endpoint); [apply lookup_empty|].
    by apply lookup_singleton_ne.
Qed.

(** X14.  An argument of type [string] is written under its key as it is
    exactly when it is not empty, on a call-state of the endpoint on which
    the routine returns a mapping and nothing else is written under the
    key; a required one is not empty then. *)
Theorem values_string_argument (endpoint : Endpoint.t) (c : Call)
    (arg : Argument.t) (s : string) (v : url_Values) :
  call_of endpoint c ->
  arg ∈ Endpoint.Args endpoint ->
  fields c !! Argument.Name arg = Some (VString s) ->
  (forall a, a ∈ Endpoint.Args endpoint -> a <> arg -> qn a <> qn arg) ->
  (Endpoint.SkipToken endpoint = false -> qn arg <> "token") ->
  Values endpoint c = Returned (Some v) None ->
  v !! qn arg = (if (String.length s =? 0)%nat then None else Some [s]) /\
  (Argument.Required arg = true -> s <> "").
Proof.
  intros Hc Hin Hf Hkeys Htok Hv. split.
  - rewrite (Values_written endpoint c arg (VString s)
               (negb (String.length s =? 0)%nat) s v); try done.
    + by destruct (String.length s =? 0)%nat.
    + intros v0 l0 v1 l1. unfold arg_effect, write_arg. simpl.
      destruct (Argument.Required arg), (String.length s =? 0)%nat; simpl;
        intros [=]; done.
  - intros Hreq ->.
    apply (Values_not_stopped endpoint c arg (VString "") v); try done.
    intros v0 l0. unfold arg_effect. rewrite Hreq. simpl. eauto.
Qed.

(** X15.  An argument of a list or object type is written under its key
    as the result of its [Encode], on a call-state of the endpoint on
    which the routine returns a mapping and nothing else is written under
    the key.  When it is unset (an empty list, a nil object) it is optional
    and left out, whatever its [Encode] would give. *)
Theorem values_encoded_argument (endpoint : Endpoint.t) (c : Call)
    (arg : Argument.t) (val : Value) (v : url_Values) :
  call_of endpoint c ->
  arg ∈ Endpoint.Args endpoint ->
  is_simple arg = false ->
  fields c !! Argument.Name arg = Some val ->
  (forall a, a ∈ Endpoint.Args endpoint -> a <> arg -> qn a <> qn arg) ->
  (Endpoint.SkipToken endpoint = false -> qn arg <> "token") ->
  Values endpoint c = Returned (Some v) None ->
  if is_unset val
  then Argument.Required arg = false /\ v !! qn arg = None
  else exists s, encode_field c (Argument.Name arg) = Some (inl s)
                 /\ v !! qn arg = Some [s].
Proof.
  intros Hc Hin Hsimple Hf Hkeys Htok Hv.
  assert (Hshape : (exists l, val = VList l) \/ (exists o, val = VPtr o)).
  { apply (proj1 (Forall_forall _ _) Hc) in Hin as (val' & Hf' & Hty).
    rewrite Hf in Hf'. injection Hf' as <-.
    unfold is_simple in Hsimple. unfold has_type in Hty.
    apply orb_false_iff in Hsimple as [[H1 H2]%orb_false_iff H3].
    rewrite H1, H2, H3 in Hty.
    destruct (strings.HasSuffix (Argument.Type_ arg) "List"), val;
      try discriminate; eauto. }
  destruct (is_unset val) eqn:Hu.
  - assert (Hreq : Argument.Required arg = false).
    { destruct (Argument.Required arg) eqn:Hreq; [|done]. exfalso.
      apply (Values_not_stopped endpoint c arg val v); try done.
      intros v0 l0. unfold arg_effect. rewrite Hreq, Hu. eauto. }
    split; [done|].
    rewrite (Values_written endpoint c arg val false "" v); try done.
    intros v0 l0 v1 l1. unfold arg_effect. rewrite Hreq.
    destruct Hshape as [[l ->]|[o ->]]; simpl in *; rewrite Hu; simpl;
      by intros [= <- <-].
  - assert (Hset : forall v0 l0,
              arg_effect arg val v0 l0 = write_arg arg val v0 l0).
    { intros v0 l0. unfold arg_effect. rewrite Hu.
      destruct (Argument.Required arg); [done|].
      destruct Hshape as [[l ->]|[o ->]]; simpl in *; by rewrite Hu. }
    assert (Henc : exists r, encode_field c (Argument.Name arg) = Some r
              /\ forall v0 l0,
                   write_arg arg val v0 l0
                   = match r with
                     | inl s =>
                         Next (<[qn arg := [s]]> v0)
                           (if Argument.Required arg
                            then <[Argument.Name arg +:+ "Encoded" := s]> l0
                            else l0)
                     | inr err =>
                         Returned None
                           (Some (errors.Wrap err "failed to encode field"))
                     end).
    { unfold encode_field. rewrite Hf.
      destruct Hshape as [[l ->]|[[o|] ->]]; try discriminate; eauto. }
    destruct Henc as ([s|err] & Henc & Hw).
    + exists s. split; [done|].
      rewrite (Values_written endpoint c arg val true s v); try done.
      intros v0 l0 v1 l1. rewrite Hset, Hw. by intros [= <- _].
    + exfalso.
      apply (Values_not_stopped endpoint c arg val v); try done.
      intros v0 l0. rewrite Hset, Hw. eauto.
Qed.

(** X16.  When the field of an argument that is set fails to encode, and
    no argument before it is a missing required one or fails to encode,
    [Values] returns no mapping and the error of [Encode] with
    [failed to encode field: ] before it. *)
Theorem values_encode_failure (endpoint : Endpoint.t) (c : Call)
    (pre : list Argument.t) (arg : Argument.t) (post : list Argument.t)
    (val : Value) (err : string) :
  call_of endpoint c ->
  Endpoint.Args endpoint = pre ++ arg :: post ->
  fields c !! Argument.Name arg = Some val ->
  is_unset val = false ->
  encode_field c (Argument.Name arg) = Some (inr err) ->
  (forall b valb, b ∈ pre -> fields c !! Argument.Name b = Some valb ->
     (Argument.Required b = true -> is_unset valb = false) /\
     (forall e, encode_field c (Argument.Name b) <> Some (inr e))) ->
  Values endpoint c
  = Returned None (Some ("failed to encode field: " +:+ err)).
Proof.
  intros Hc Hargs Hf Hu Henc Hpre. unfold call_of in Hc.
  rewrite Values_unfold, Hargs. rewrite Hargs in Hc.
  rewrite (exec_args_first_stop c pre arg post val
             ("failed to encode field: " +:+ err)); try done.
  intros v0 l0. unfold encode_field in Henc. rewrite Hf in Henc.
  unfold arg_effect, write_arg. rewrite Hu.
  destruct val as [?|?|?|l|[o|]]; try discriminate;
    injection Henc as Henc; simpl in *; rewrite ?Hu, Henc;
    destruct (Argument.Required arg); reflexivity.
Qed.

End ValuesProperties.

Ltac example_typed := repeat constructor; eexists; split; reflexivity.

Ltac example_keys :=
  let a := fresh "a" in
  let Ha := fresh "Ha" in
  let Hne := fresh "Hne" in
  intros a Ha Hne; unfold example_endpoint in Ha; simpl in Ha;
  repeat (apply elem_of_cons in Ha as [->|Ha]);
  try discriminate; try done; by inv Ha.

Lemma values_outcome_witness :
  call_of example_endpoint (example_call "" true 3 []) /\
  ((exists v,
      Values example_endpoint (example_call "" true 3 [])
      = Returned (Some v) None)
   \/ (exists err,
         Values example_endpoint (example_call "" true 3 [])
         = Returned None (Some err))).
Proof.
  split; [example_typed|].
  apply (values_outcome (H:=example_objects)). example_typed.
Defined.

Lemma values_succeeds_witness :
  exists v,
    Values example_endpoint (example_call "C1" false 0 [])
    = Returned (Some v) None.
Proof.
  apply (values_succeeds (H:=example_objects)); [example_typed|].
  intros a val Ha Hf. unfold example_endpoint in Ha. simpl in Ha.
  repeat (apply elem_of_cons in Ha as [->|Ha]); [..|by inv Ha];
    vm_compute in Hf; injection Hf as <-;
    (split; [try discriminate; reflexivity
            |intros err; vm_compute; discriminate]).
Defined.

Lemma values_other_keys_witness :
  (({[ "token" := ["T"]; "channel" := ["C1"] ]} : url_Values) !! "token"
   = Some ["T"]) /\
  (({[ "token" := ["T"]; "channel" := ["C1"] ]} : url_Values) !! "limit"
   = None).
Proof.
  split.
  - refine (proj1
      (values_other_keys (H:=example_objects) example_endpoint
         (example_call "C1" false 0 [])
         {[ "token" := ["T"]; "channel" := ["C1"] ]} "token" _ _ _) _ _);
      try reflexivity; [example_typed|].
    intros a Ha. unfold example_endpoint in Ha. simpl in Ha.
    repeat (apply elem_of_cons in Ha as [->|Ha]); try discriminate.
    by inv Ha.
  - refine (proj2
      (values_other_keys (H:=example_objects) example_endpoint
         (example_call "C1" false 0 [])
         {[ "token" := ["T"]; "channel" := ["C1"] ]} "limit" _ _ _) _);
      try reflexivity; [example_typed| |left; discriminate].
    intros a Ha. unfold example_endpoint in Ha. simpl in Ha.
    repeat (apply elem_of_cons in Ha as [->|Ha]); try discriminate.
    by inv Ha.
Defined.

Lemma values_string_argument_witness :
  (({[ "token" := ["T"]; "channel" := ["C1"] ]} : url_Values) !! "channel"
   = Some ["C1"]) /\
  (({[ "token" := ["T"]; "channel" := ["C1"] ]} : url_Values) !! "text"
   = None).
Proof.
  split.
  - refine (proj1
      (values_string_argument (H:=example_objects) example_endpoint
         (example_call "C1" false 0 [])
         (example_arg "channel" "string" true) "C1"
         {[ "token" := ["T"]; "channel" := ["C1"] ]} _ _ _ _ _ _));
      try reflexivity; try discriminate;
      [example_typed|right; left|example_keys].
  - refine (proj1
      (values_string_argument (H:=example_objects) example_endpoint
         (example_call "C1" false 0 [])
         (example_arg "text" "string" false) ""
         {[ "token" := ["T"]; "channel" := ["C1"] ]} _ _ _ _ _ _));
      try reflexivity; try discriminate;
      [example_typed|left|example_keys].
Defined.

Lemma values_encoded_argument_witness :
  (exists s,
     encode_field (example_call "C1" false 0 ["U1"; "U2"]) "users"
     = Some (inl s)
     /\ ({[ "token" := ["T"]; "channel" := ["C1"]; "users" := ["U1,U2"] ]}
         : url_Values) !! "users" = Some [s]) /\
  (({[ "token" := ["T"]; "channel" := ["C1"] ]} : url_Values) !! "users"
   = None).
Proof.
  split.
  - refine (values_encoded_argument (H:=example_objects) example_endpoint
         (example_call "C1" false 0 ["U1"; "U2"])
         (example_arg "users" "objects.UserList" false)
         (@VList example_objects ["U1"; "U2"])
         {[ "token" := ["T"]; "channel" := ["C1"]; "users" := ["U1,U2"] ]}
         _ _ _ _ _ _ _);
      try reflexivity; try discriminate;
      [example_typed|do 2 right; left|example_keys].
  - refine (proj2
      (values_encoded_argument (H:=example_objects) example_endpoint
         (example_call "C1" false 0 [])
         (example_arg "users" "objects.UserList" false)
         (@VList example_objects [])
         {[ "token" := ["T"]; "channel" := ["C1"] ]}
         _ _ _ _ _ _ _));
      try reflexivity; try discriminate;
      [example_typed|do 2 right; left|example_keys].
Defined.

Lemma values_encode_failure_witness :
  encode_field (example_call "C1" false 0 ["bad"]) "users"
  = Some (inr "bad element") /\
  Values (sort_args example_endpoint) (example_call "C1" false 0 ["bad"])
  = Returned None (Some "failed to encode field: bad element").
Proof.
  split; [reflexivity|].
  apply (values_encode_failure (H:=example_objects)
           (sort_args example_endpoint)
           (example_call "C1" false 0 ["bad"])
           [example_arg "as_user" "bool" false;
            example_arg "channel" "string" true;
            example_arg "count" "int" false;
            example_arg "text" "string" false]
           (example_arg "users" "objects.UserList" false) []
           (@VList example_objects ["bad"]) "bad element");
    try reflexivity; [example_typed|].
  intros b valb Hb Hf.
  repeat (apply elem_of_cons in Hb as [->|Hb]); [..|by inv Hb];
    vm_compute in Hf; injection Hf as <-;
    (split; [try discriminate; reflexivity
            |intros err; vm_compute; discriminate]).
Defined.

(** ** More on the [Do] routine *)

Section DoProperties.

Context `{Objects} {P : Type}.

(** X17.  When [Values] fails, [Do] returns its error as it is and no
    payload, whatever the transport would answer: the transport is not
    called. *)
Theorem do_values_failure (endpoint : Endpoint.t) (c : Call) (err : string) :
  Values endpoint c = Returned None (Some err) ->
  forall postForm : string -> url_Values -> Envelope P + string,
    Do postForm endpoint c = DoReturned None (Some err).
Proof.
  intros Hv postForm. unfold Do, do_stmts. simpl. by rewrite Hv.
Qed.

(** X18.  When [Values] gives a mapping and the transport fails, [Do]
    returns no payload and the error of the transport with
    [failed to post to <endpoint name>: ] before it. *)
Theorem do_post_failure
    (postForm : string -> url_Values -> Envelope P + string)
    (endpoint : Endpoint.t) (c : Call) (v : url_Values) (err : string) :
  Values endpoint c = Returned (Some v) None ->
  postForm (Endpoint.Name endpoint) v = inr err ->
  Do postForm endpoint c
  = DoReturned None
      (Some ("failed to post to " +:+ Endpoint.Name endpoint +:+ ": "
             +:+ err)).
Proof.
  intros Hv Hpost. unfold Do, do_stmts. simpl.
  rewrite Hv. simpl. rewrite Hpost. unfold errors.Wrap. text_eq.
Qed.

(** X19.  When [Values] gives a mapping and the transport decodes an
    envelope whose success flag is true, [Do] returns no error, and the
    payload of the envelope when the endpoint declares a return type; for
    an endpoint without a return type it returns no payload. *)
Theorem do_success
    (postForm : string -> url_Values -> Envelope P + string)
    (endpoint : Endpoint.t) (c : Call) (v : url_Values) (res : Envelope P) :
  Values endpoint c = Returned (Some v) None ->
  postForm (Endpoint.Name endpoint) v = inl res ->
  OK res = true ->
  Do postForm endpoint c
  = DoReturned (if hasReturn endpoint then Payload res else None) None.
Proof.
  intros Hv Hpost Hok. unfold Do, do_stmts. simpl.
  rewrite Hv. simpl. rewrite Hpost. simpl. rewrite Hok. simpl.
  by destruct (hasReturn endpoint).
Qed.

(** X20.  On a call-state of the endpoint [Do] returns; it never returns
    a payload together with an error, and never a payload for an endpoint
    without a return type. *)
Theorem do_outcome
    (postForm : string -> url_Values -> Envelope P + string)
    (endpoint : Endpoint.t) (c : Call) :
  call_of endpoint c ->
  exists payload err,
    Do postForm endpoint c = DoReturned payload err /\
    (payload = None \/ err = None) /\
    (hasReturn endpoint = false -> payload = None).
Proof.
  intros Hc. unfold Do, do_stmts. simpl.
  rewrite Values_unfold.
  destruct (exec_args_progress c (Endpoint.Args endpoint)
              (if Endpoint.SkipToken endpoint then ∅
               else {[ "token" := [token c] ]}) ∅ Hc)
    as [(v & locals & ->)|(err & ->)]; simpl.
  2: { eexists _, _. split; [reflexivity|]. by split; [left|]. }
  destruct (postForm (Endpoint.Name endpoint) v) as [res|err]; simpl.
  2: { eexists _, _. split; [reflexivity|]. by split; [left|]. }
  destruct (OK res); simpl.
  2: { eexists _, _. split; [reflexivity|]. by split; [left|]. }
  eexists _, _. split; [reflexivity|]. split; [by right|].
  by intros ->.
Qed.

End DoProperties.

Lemma do_values_failure_witness :
  Values example_endpoint (example_call "" true 3 [])
  = Returned None (Some "missing required parameter channel") /\
  Do (example_postForm
        {| OK := true; Error := ""; Payload := Some "p" |})
     example_endpoint (example_call "" true 3 [])
  = DoReturned None (Some "missing required parameter channel").
Proof.
  split; [reflexivity|].
  apply (do_values_failure (H:=example_objects)). reflexivity.
Defined.

Lemma do_post_failure_witness :
  Do (fun _ _ => inr "timeout" : Envelope string + string)
     example_endpoint (example_call "C1" false 0 [])
  = DoReturned None
      (Some "failed to post to chat.postMessage: timeout").
Proof.
  apply (do_post_failure (H:=example_objects)
           (fun _ _ => inr "timeout" : Envelope string + string)
           example_endpoint (example_call "C1" false 0 [])
           {[ "token" := ["T"]; "channel" := ["C1"] ]} "timeout");
    reflexivity.
Defined.

Lemma do_success_witness :
  Do (example_postForm {| OK := true; Error := ""; Payload := Some "p" |})
     example_endpoint (example_call "C1" false 0 [])
  = DoReturned (Some "p") None /\
  Do (example_postForm {| OK := true; Error := ""; Payload := Some "p" |})
     (example_int_endpoint false) (example_call "C1" false 0 [])
  = DoReturned None None.
Proof.
  split.
  - apply (do_success (H:=example_objects)
             (example_postForm
                {| OK := true; Error := ""; Payload := Some "p" |})
             example_endpoint (example_call "C1" false 0 [])
             {[ "token" := ["T"]; "channel" := ["C1"] ]}
             {| OK := true; Error := ""; Payload := Some "p" |});
      reflexivity.
  - apply (do_success (H:=example_objects)
             (example_postForm
                {| OK := true; Error := ""; Payload := Some "p" |})
             (example_int_endpoint false) (example_call "C1" false 0 [])
             {[ "token" := ["T"] ]}
             {| OK := true; Error := ""; Payload := Some "p" |});
      reflexivity.
Defined.

Lemma do_outcome_witness :
  exists payload err,
    Do (example_postForm {| OK := true; Error := ""; Payload := Some "p" |})
       example_endpoint (example_call "C1" false 0 [])
    = DoReturned payload err /\
    (payload = None \/ err = None) /\
    (hasReturn example_endpoint = false -> payload = None).
Proof. apply (do_outcome (H:=example_objects)). example_typed. Defined.

(** ** The setters and the constructor *)

Section SetterProperties.

Context `{Objects}.

(** X21.  A required argument has no setter.  An optional argument whose
    type does not end in [List] has one setter and no more: it is named by
    the camel-cased argument name, takes a value of the type of the
    argument and assigns it to the field. *)
Theorem scalar_setter (endpoint : Endpoint.t) (arg : Argument.t) :
  (Argument.Required arg = true ->
   setter_methods endpoint arg = [] /\ setters endpoint arg = "") /\
  (Argument.Required arg = false ->
   strings.HasSuffix (Argument.Type_ arg) "List" = false ->
   exists m : Go.method,
     setter_methods endpoint arg = [m] /\
     setters endpoint arg = Go.render_method m /\
     Go.name m = camelit (Argument.Name arg) /\
     Go.ptype m = Argument.Type_ arg /\
     Go.body m = Go.Assign (Argument.Name arg) (Go.param m) /\
     forall (c : Call) (x : Value),
       run_setter (Go.body m) c (inl x)
       = Some (set_field (Argument.Name arg) x c)).
Proof.
  split.
  - intros Hreq. unfold setter_methods, setters. by rewrite Hreq.
  - intros Hopt Hlist.
    pose proof (render_setters endpoint arg) as Hr.
    unfold setter_methods in *. rewrite Hopt, Hlist in *.
    eexists. split; [reflexivity|].
    split; [rewrite <- Hr; cbn [map cat foldr]; by rewrite append_nil_r|].
    by repeat split.
Qed.

Lemma set_field_commute (f g : string) (x y : Value) (c : Call) :
  f <> g ->
  set_field f x (set_field g y c) = set_field g y (set_field f x c).
Proof.
  intros Hfg. unfold set_field. simpl. f_equal. by apply insert_insert_ne.
Qed.


Lemma Values_string (endpoint : Endpoint.t) (c : Call)
    (arg : Argument.t) (s : string) (v : url_Values) :
  call_of endpoint c ->
  arg ∈ Endpoint.Args endpoint ->
  fields c !! Argument.Name arg = Some (VString s) ->
  (forall a, a ∈ Endpoint.Args endpoint -> a <> arg -> qn a <> qn arg) ->
  (Endpoint.SkipToken endpoint = false -> qn arg <> "token") ->
  Values endpoint c = Returned (Some v) None ->
  v !! qn arg = (if (String.length s =? 0)%nat then None else Some [s]).
Proof.
  intros Hc Hin Hf Hkeys Htok Hv.
  rewrite (Values_written endpoint c arg (VString s)
             (negb (String.length s =? 0)%nat) s v); try done.
  - by destruct (String.length s =? 0)%nat.
  - intros v0 l0 v1 l1. unfold arg_effect, write_arg. simpl.
    destruct (Argument.Required arg), (String.length s =? 0)%nat; simpl;
      intros [=]; done.
Qed.


End SetterProperties.

Lemma scalar_setter_witness :
  exists m : Go.method,
    setter_methods example_endpoint (example_arg "text" "string" false)
    = [m] /\
    Go.name m = "Text" /\ Go.ptype m = "string".
Proof.
  destruct (proj2 (scalar_setter (H:=example_objects) example_endpoint
                     (example_arg "text" "string" false))
              eq_refl eq_refl)
    as (m & Hm & _ & Hn & Hp & _).
  exists m. by repeat split.
Defined.



Lemma StronglySorted_required_names (l : list Argument.t) :
  StronglySorted argument_le l ->
  StronglySorted String.le
    (map Argument.Name (filter (fun a => Argument.Required a = true) l)).
Proof.
  induction 1 as [|a l Hl IH Hall]; [constructor|].
  destruct (decide (Argument.Required a = true)) as [Hr|Hr].
  - rewrite filter_cons_True by done. simpl. constructor; [done|].
    apply Forall_forall. intros n Hn.
    apply list_elem_of_In, in_map_iff in Hn as (b & <- & Hb).
    apply list_elem_of_In, list_elem_of_filter in Hb as [_ Hb].
    by apply (proj1 (Forall_forall _ _) Hall).
  - by rewrite filter_cons_False.
Qed.

(** X24.  The constructor takes the required arguments, each once, in the
    order of their names. *)
Theorem constructor_parameters (endpoint : Endpoint.t) :
  Sorted String.le (requiredArgNames (sort_args endpoint)) /\
  requiredArgNames (sort_args endpoint) ≡ₚ requiredArgNames endpoint /\
  (forall n,
     n ∈ requiredArgNames endpoint
     <-> exists a, a ∈ Endpoint.Args endpoint
                   /\ Argument.Required a = true /\ Argument.Name a = n).
Proof.
  split; [|split].
  - apply StronglySorted_Sorted, StronglySorted_required_names.
    apply Sorted_StronglySorted; [|apply sort_args_Sorted].
    intros a b c. unfold argument_le. apply transitivity.
  - unfold requiredArgNames. apply Permutation_map.
    by rewrite sort_args_Permutation.
  - intros n. unfold requiredArgNames.
    rewrite list_elem_of_In, in_map_iff. split.
    + intros (a & Hn & Ha).
      apply list_elem_of_In, list_elem_of_filter in Ha as [Hr Ha]. eauto.
    + intros (a & Ha & Hr & Hn). exists a. split; [done|].
      apply list_elem_of_In, list_elem_of_filter. done.
Qed.

(** X25.  The name of the payload field that [Do] returns is the return
    type after its last dot, and the whole return type when it has no dot;
    it never contains a dot. *)
Theorem payload_field_no_dot (endpoint : Endpoint.t) :
  contains "." (payload_field endpoint) = false /\
  (forall pkg T,
     Endpoint.ReturnType endpoint = pkg +:+ String "." T ->
     contains "." T = false -> payload_field endpoint = T) /\
  (contains "." (Endpoint.ReturnType endpoint) = false ->
   payload_field endpoint = Endpoint.ReturnType endpoint).
Proof.
  assert (Hsplit : forall pkg T,
     Endpoint.ReturnType endpoint = pkg +:+ String "." T ->
     contains "." T = false -> payload_field endpoint = T).
  { intros pkg T Hr HT. unfold payload_field, strings.LastIndexByte.
    rewrite Hr, LastIndexByte_go_split by done.
    replace (-1 <? 0 + Z.of_nat (String.length pkg))%Z with true
      by (symmetry; apply Z.ltb_lt; lia).
    rewrite Z.add_0_l, slice_from_append. done. }
  assert (Hnone : contains "." (Endpoint.ReturnType endpoint) = false ->
     payload_field endpoint = Endpoint.ReturnType endpoint).
  { intros Hc. unfold payload_field.
    by rewrite (LastIndexByte_absent _ _ Hc). }
  split; [|by split].
  destruct (contains "." (Endpoint.ReturnType endpoint)) eqn:Hc.
  - destruct (LastIndexByte_present _ _ Hc) as (pkg & T & Hr & HT & _).
    by rewrite (Hsplit pkg T Hr HT).
  - by rewrite Hnone.
Qed.
